(** * TruffleRuby C-extension shim: call.c, ivar.c and printf.c

    A shallow embedding of the native wrappers of [src/main/c/cext] and of
    the bridge they talk to.  Native functions become computations in a
    state-and-outcome monad [M]; the host runtime is reached only through
    [polyglot_invoke], whose handler is a parameter of the development. *)

From Stdlib Require Import ZArith Ascii String List Lia.
From stdpp Require Import base option list strings countable gmap pretty.

Set Default Proof Using "Type".
Open Scope Z_scope.

(** ** Managed references *)

(** A reference to an object of the managed runtime.  Immediates, the
    C-extension support module and the named classes are kept apart from
    heap objects, which are denoted by their address in the host heap. *)
Inductive ref : Type :=
| MNil
| MTrue
| MFalse
| MInt (z : Z)
| MSym (name : string)
| MCext
| MClass (name : string)
| MObj (addr : nat).

#[global] Instance ref_eq_dec : EqDecision ref.
Proof. solve_decision. Defined.

Definition ref_to_sum (r : ref) : unit + unit + unit + Z + string + unit + string + nat :=
  match r with
  | MNil => inl (inl (inl (inl (inl (inl (inl tt))))))
  | MTrue => inl (inl (inl (inl (inl (inl (inr tt))))))
  | MFalse => inl (inl (inl (inl (inl (inr tt)))))
  | MInt z => inl (inl (inl (inl (inr z))))
  | MSym s => inl (inl (inl (inr s)))
  | MCext => inl (inl (inr tt))
  | MClass c => inl (inr c)
  | MObj a => inr a
  end.

Definition ref_of_sum (s : unit + unit + unit + Z + string + unit + string + nat) : ref :=
  match s with
  | inl (inl (inl (inl (inl (inl (inl _)))))) => MNil
  | inl (inl (inl (inl (inl (inl (inr _)))))) => MTrue
  | inl (inl (inl (inl (inl (inr _))))) => MFalse
  | inl (inl (inl (inl (inr z)))) => MInt z
  | inl (inl (inl (inr s))) => MSym s
  | inl (inl (inr _)) => MCext
  | inl (inr c) => MClass c
  | inr a => MObj a
  end.

#[global] Instance ref_countable : Countable ref.
Proof.
  refine (inj_countable' ref_to_sum ref_of_sum _).
  intros r; destruct r; reflexivity.
Defined.

(** ** Handle layer *)

(** [VALUE] is the opaque native token of the C API. *)
Definition VALUE := nat.

Module Handle.

(** Modelled from the spec: [rb_tr_wrap] and [rb_tr_unwrap] are declared
    in truffleruby-impl.h, which is not part of the sources at hand.
    Following the spec (sections 4.1 and 9) the handle layer is a table
    owned by the bridge, mapping small tokens to managed-reference slots,
    with validity checked on lookup. *)
Definition table := list ref.

Definition find (r : ref) (t : table) : option VALUE :=
  fst <$> list_find (eq r) t.

(** Modelled from the spec: [wrap] never fails; a reference that already
    owns a slot keeps its token, a new one gets the next free slot. *)
Definition wrap (r : ref) (t : table) : VALUE * table :=
  match find r t with
  | Some h => (h, t)
  | None => (length t, t ++ [r])
  end.

(** Modelled from the spec: [unwrap] is a checked lookup; [None] is the
    fail-fast case of a token that [wrap] never handed out. *)
Definition unwrap (h : VALUE) (t : table) : option ref := t !! h.

(** The table invariant: each managed reference owns at most one slot. *)
Definition wf (t : table) : Prop := NoDup t.

End Handle.

(** ** Native values crossing the bridge *)

(** Native function pointers.  [FnCallGvl] and [FnCallUnblock] are the
    addresses of the two static trampolines of call.c, [FnUbfIo] is the
    sentinel [RUBY_UBF_IO], [FnUser n] an extension-supplied function. *)
Inductive fnptr : Type :=
| FnNull
| FnUbfIo
| FnCallGvl
| FnCallUnblock
| FnUser (id : nat).

#[global] Instance fnptr_eq_dec : EqDecision fnptr.
Proof. solve_decision. Defined.

Definition NULL : fnptr := FnNull.
Definition RUBY_UBF_IO : fnptr := FnUbfIo.

Record gvl_call_data : Type := mk_gvl_call_data {
  gc_function : fnptr;
  gc_data : Z
}.

Record unblock_function_data : Type := mk_unblock_function_data {
  ub_function : fnptr;
  ub_data : Z
}.

Inductive rb_encoding : Type :=
| ASCII_8BIT
| UTF_8
| US_ASCII.

(** What [polyglot_invoke] can carry: unwrapped references, C scalars,
    C strings, function pointers and data pointers. *)
Inductive raw : Type :=
| Managed (r : ref)
| Int (z : Z)
| CStr (s : string)
| Fun (f : fnptr)
| Ptr (p : Z)
| PtrGvl (s : gvl_call_data)
| PtrUnblock (s : unblock_function_data)
| PtrEnc (e : rb_encoding).

(** ** Outcomes *)

Inductive jump : Type :=
| JRaise (exc : ref)
| JBreak (value : ref).

(** A native call returns, leaves by a non-local exit, aborts the process
    ([rb_tr_error]) or has no defined behaviour. *)
Inductive outcome (A : Type) : Type :=
| Ret (a : A)
| Jump (j : jump)
| Fatal (msg : string)
| Undefined.

Arguments Ret {A} a.
Arguments Jump {A} j.
Arguments Fatal {A} msg.
Arguments Undefined {A}.

Definition returns {A} (o : outcome A) : bool :=
  match o with Ret _ => true | _ => false end.

Record invocation : Type := Invoke {
  inv_target : raw;
  inv_name : string;
  inv_args : list raw
}.

(** Calls made through a function pointer stored in one of the adapter
    structures, tagged by the trampoline that made them. *)
Inductive native_call : Type :=
| GvlCall (f : fnptr) (data : Z)
| UnblockCall (f : fnptr) (data : Z).

(** ** Symbol identifiers *)

(** Modelled from the spec: [ID] is the token of a managed symbol,
    reconstructible from its name (section 3); its definition is in
    ruby.h, outside the sources at hand. *)
Record ID : Type := mkID { id_name : string }.

Definition rb_intern (name : string) : ID := mkID name.
Definition rb_tr_id2sym (id : ID) : raw := Managed (MSym (id_name id)).

(** ** C strings and formatted output *)

Definition NUL : ascii := Ascii.zero.

(** The bytes a [char *] denotes: everything before the first NUL. *)
Fixpoint c_str (s : string) : string :=
  match s with
  | EmptyString => EmptyString
  | String c rest => if decide (c = NUL) then EmptyString else String c (c_str rest)
  end.

Inductive va_arg : Type :=
| VaInt (z : Z)
| VaStr (s : string)
| VaChar (c : ascii).

Definition va_list := list va_arg.

(** The C library's formatting loop, as far as the results below need it:
    text without conversions and [%%], and the plain conversions [%d],
    [%s] and [%c] with an argument of their kind.  [None] is the negative
    return value; the model also gives it where it has no answer of its
    own (a width, a flag, another conversion, a missing argument), and
    nothing below is stated about such formats. *)
Fixpoint format_loop (fmt : string) (args : va_list) : option string :=
  match fmt with
  | EmptyString => Some EmptyString
  | String "%" (String "%" rest) => String "%" <$> format_loop rest args
  | String "%" (String "d" rest) =>
      match args with
      | VaInt z :: args' => String.append (pretty z) <$> format_loop rest args'
      | _ => None
      end
  | String "%" (String "s" rest) =>
      match args with
      | VaStr s :: args' => String.append (c_str s) <$> format_loop rest args'
      | _ => None
      end
  | String "%" (String "c" rest) =>
      match args with
      | VaChar c :: args' => String c <$> format_loop rest args'
      | _ => None
      end
  | String "%" _ => None
  | String c rest => String c <$> format_loop rest args
  end.

Definition vasprintf (format : string) (args : va_list) : option string :=
  format_loop (c_str format) args.

(** ** The bridge and the native wrappers *)

(** What the host does with one invocation: it finishes with an outcome
    and a new state, or first calls back through a native function
    pointer and goes on with what that call returned. *)
Inductive hostprog (S : Type) : Type :=
| HDone (o : outcome raw) (s : S)
| HCall (f : fnptr) (arg : raw) (k : raw -> hostprog S).

Arguments HDone {S} o s.
Arguments HCall {S} f arg k.

(** What the shim runs against: the host runtime behind the bridge, which
    the native layer never inspects, and the extension's own native
    functions. *)
Class Platform : Type := {
  (** the state of the host runtime *)
  HostState : Type;
  (** the host's answer to [polyglot_invoke(target, name, args...)] *)
  host_invoke : raw -> string -> list raw -> HostState -> hostprog HostState;
  (** the extension's native functions, by [FnUser] identifier *)
  natives : nat -> Z -> Z
}.

Section Bridge.

Context `{Platform}.

Record World : Type := mkWorld {
  handles : Handle.table;
  host : HostState;
  calls : list invocation;
  derefs : list native_call
}.

Definition M (A : Type) : Type := World -> outcome A * World.

Definition ret {A} (a : A) : M A := fun w => (Ret a, w).

Definition bind {A B} (m : M A) (k : A -> M B) : M B :=
  fun w =>
    match m w with
    | (Ret a, w') => k a w'
    | (Jump j, w') => (Jump j, w')
    | (Fatal msg, w') => (Fatal msg, w')
    | (Undefined, w') => (Undefined, w')
    end.

Definition undefined {A} : M A := fun w => (Undefined, w).

Notation "x <- m ;; k" := (bind m (fun x => k))
  (at level 100, m at next level, right associativity).

(** *** Primitives from truffleruby-impl.h *)

(** Modelled from the spec: [rb_tr_error] is the fatal internal error of
    section 7; it prints its message and aborts. *)
Definition rb_tr_error {A} (msg : string) : M A := fun w => (Fatal msg, w).

(** Modelled from the spec: [rb_tr_wrap] and [rb_tr_unwrap] run the handle
    layer on the table of the world.  Only a managed reference can be
    wrapped; unwrapping a token that is not in the table is fatal. *)
Definition rb_tr_wrap (x : raw) : M VALUE :=
  fun w =>
    match x with
    | Managed r =>
        let '(h, t) := Handle.wrap r (handles w) in
        (Ret h, mkWorld t (host w) (calls w) (derefs w))
    | _ => (Undefined, w)
    end.

Definition rb_tr_unwrap (v : VALUE) : M raw :=
  fun w =>
    match Handle.unwrap v (handles w) with
    | Some r => (Ret (Managed r), w)
    | None => (Fatal "invalid handle", w)
    end.

(** The fixed target of the bridge: the embedded runtime's support
    module. *)
Definition RUBY_CEXT : raw := Managed MCext.

(** Modelled from the spec: [Qnil] and [NIL_P] come from ruby.h, outside
    the sources at hand; [Qnil] is the handle of the managed nil and
    [NIL_P] asks whether a handle denotes it. *)
Definition Qnil : M VALUE := rb_tr_wrap (Managed MNil).

Definition NIL_P (v : VALUE) : M bool :=
  r <- rb_tr_unwrap v ;;
  ret (match r with Managed MNil => true | _ => false end).

Definition ID2SYM (id : ID) : M VALUE := rb_tr_wrap (rb_tr_id2sym id).

(** *** Indirect calls and the trampolines of call.c *)

(** A call through a pointer held in an adapter structure.  Only an
    extension function can be called with a plain data pointer. *)
Definition call_fnptr (tag : fnptr -> Z -> native_call) (f : fnptr) (data : Z) : M Z :=
  fun w =>
    let w' := mkWorld (handles w) (host w) (calls w) (derefs w ++ [tag f data]) in
    match f with
    | FnUser n => (Ret (natives n data), w')
    | _ => (Undefined, w')
    end.

Definition call_gvl_call_function (data : raw) : M raw :=
  match data with
  | PtrGvl s =>
      r <- call_fnptr GvlCall (gc_function s) (gc_data s) ;;
      ret (Ptr r)
  | _ => undefined
  end.

Definition call_unblock_function (data : raw) : M unit :=
  match data with
  | PtrUnblock s =>
      _ <- call_fnptr UnblockCall (ub_function s) (ub_data s) ;;
      ret tt
  | _ => undefined
  end.

(** The host calling back through a native function pointer. *)
Definition call_native (f : fnptr) (arg : raw) : M raw :=
  match f with
  | FnCallGvl => call_gvl_call_function arg
  | FnCallUnblock => _ <- call_unblock_function arg ;; ret (Ptr 0)
  | FnUser n =>
      match arg with
      | Ptr p => ret (Ptr (natives n p))
      | _ => undefined
      end
  | FnNull | FnUbfIo => undefined
  end.

Fixpoint run_host (p : hostprog HostState) : M raw :=
  match p with
  | HDone o s =>
      fun w => (o, mkWorld (handles w) s (calls w) (derefs w))
  | HCall f arg k =>
      r <- call_native f arg ;;
      run_host (k r)
  end.

(** The foreign-call primitive: the invocation is recorded, then the
    host runs it. *)
Definition polyglot_invoke (target : raw) (name : string) (args : list raw) : M raw :=
  fun w =>
    let w' := mkWorld (handles w) (host w)
                      (calls w ++ [Invoke target name args]) (derefs w) in
    run_host (host_invoke target name args (host w')) w'.

Fixpoint unwrap_all (args : list VALUE) : M (list raw) :=
  match args with
  | [] => ret []
  | a :: rest =>
      r <- rb_tr_unwrap a ;;
      rs <- unwrap_all rest ;;
      ret (r :: rs)
  end.

(** Modelled from the spec: the invocation macros of truffleruby-impl.h
    (section 4.2).  The arguments are unwrapped, one invocation is
    issued, and the wrapping variants wrap what comes back. *)
Definition RUBY_INVOKE_NO_WRAP (recv : VALUE) (name : string) (args : list VALUE) : M raw :=
  t <- rb_tr_unwrap recv ;;
  a <- unwrap_all args ;;
  polyglot_invoke t name a.

Definition RUBY_INVOKE (recv : VALUE) (name : string) (args : list VALUE) : M VALUE :=
  r <- RUBY_INVOKE_NO_WRAP recv name args ;;
  rb_tr_wrap r.

Definition RUBY_CEXT_INVOKE_NO_WRAP (name : string) (args : list VALUE) : M raw :=
  a <- unwrap_all args ;;
  polyglot_invoke RUBY_CEXT name a.

Definition RUBY_CEXT_INVOKE (name : string) (args : list VALUE) : M VALUE :=
  r <- RUBY_CEXT_INVOKE_NO_WRAP name args ;;
  rb_tr_wrap r.

(** [for (int i = 0; i < n; i++) body(i)], started at [i] with [count]
    rounds to go. *)
Fixpoint for_loop (i : Z) (count : nat) (body : Z -> M unit) : M unit :=
  match count with
  | O => ret tt
  | S count' => _ <- body i ;; for_loop (i + 1) count' body
  end.

(** Reading [argv[i]]; outside the array the read has no defined
    behaviour. *)
Definition read_argv (argv : list VALUE) (i : Z) : M VALUE :=
  if decide (0 <= i) then
    match argv !! Z.to_nat i with
    | Some v => ret v
    | None => undefined
    end
  else undefined.

(** *** Helpers defined in other files of the shim *)

(** Modelled from the spec: [rb_ary_new_capa] and [rb_ary_store] live in
    array.c, outside the sources at hand; each is a pass-through
    forwarder (section 4.3): unwrap, one invocation, wrap. *)
Definition rb_ary_new_capa (capacity : Z) : M VALUE :=
  r <- polyglot_invoke RUBY_CEXT "rb_ary_new_capa" [Int capacity] ;;
  rb_tr_wrap r.

Definition rb_ary_store (array : VALUE) (index : Z) (value : VALUE) : M unit :=
  a <- rb_tr_unwrap array ;;
  v <- rb_tr_unwrap value ;;
  _ <- polyglot_invoke RUBY_CEXT "rb_ary_store" [a; Int index; v] ;;
  ret tt.

(** Modelled from the spec: [rb_ary_new4(n, values)] of array.c builds
    the ordered array of the first [n] elements of [values]. *)
Definition rb_ary_new4 (n : Z) (values : list VALUE) : M VALUE :=
  array <- rb_ary_new_capa n ;;
  _ <- for_loop 0 (Z.to_nat n)
         (fun i => v <- read_argv values i ;; rb_ary_store array i v) ;;
  ret array.

(** Modelled from the spec: [rb_str_new_cstr] (string.c) and [rb_to_id]
    (symbol.c) are forwarders outside the sources at hand. *)
Definition rb_str_new_cstr (s : string) : M VALUE :=
  r <- polyglot_invoke RUBY_CEXT "rb_str_new_cstr" [CStr (c_str s)] ;;
  rb_tr_wrap r.

Definition rb_to_id (v : VALUE) : M ID :=
  r <- RUBY_CEXT_INVOKE_NO_WRAP "rb_to_id" [v] ;;
  match r with
  | Managed (MSym name) => ret (mkID name)
  | _ => undefined
  end.

(** Modelled from the spec: [rb_enc_str_new_cstr] (encoding.c) copies
    the bytes of a C string into a managed string tagged with [enc]. *)
Definition rb_enc_str_new_cstr (ptr : string) (enc : rb_encoding) : M VALUE :=
  r <- polyglot_invoke RUBY_CEXT "rb_enc_str_new_cstr" [CStr (c_str ptr); PtrEnc enc] ;;
  rb_tr_wrap r.

(** Modelled from the spec: [rb_ascii8bit_encoding] (encoding.c) is the
    raw, binary encoding. *)
Definition rb_ascii8bit_encoding : rb_encoding := ASCII_8BIT.

(** Modelled from the spec: [rb_eArgError], [rb_exc_new3] and
    [rb_exc_raise] live in exception.c, outside the sources at hand.
    [rb_exc_raise] is an error/diversion function (section 4.3): it must
    not return, and a bridge invocation that returns is fatal. *)
Definition rb_eArgError : M VALUE := RUBY_CEXT_INVOKE "rb_eArgError" [].

Definition rb_exc_new3 (exception_class message : VALUE) : M VALUE :=
  RUBY_INVOKE exception_class "new" [message].

Definition rb_exc_raise (exception : VALUE) : M unit :=
  _ <- RUBY_CEXT_INVOKE_NO_WRAP "rb_exc_raise" [exception] ;;
  rb_tr_error "rb_exc_raise should not return".

(** *** call.c *)

Definition rb_check_arity (argc min max : Z) : M Z :=
  _ <- polyglot_invoke RUBY_CEXT "rb_check_arity" [Int argc; Int min; Int max] ;;
  ret argc.

Definition rb_error_arity (argc min max : Z) : M unit :=
  cls <- rb_eArgError ;;
  s <- polyglot_invoke RUBY_CEXT "rb_arity_error_string" [Int argc; Int min; Int max] ;;
  message <- rb_tr_wrap s ;;
  exc <- rb_exc_new3 cls message ;;
  rb_exc_raise exc.

Definition rb_iterate (function : fnptr) (arg1 : VALUE) (block : fnptr) (arg2 : VALUE) : M VALUE :=
  a1 <- rb_tr_unwrap arg1 ;;
  a2 <- rb_tr_unwrap arg2 ;;
  r <- polyglot_invoke RUBY_CEXT "rb_iterate" [Fun function; a1; Fun block; a2] ;;
  rb_tr_wrap r.

Definition rb_funcallv (object : VALUE) (name : ID) (args_count : Z) (args : list VALUE) : M VALUE :=
  sym <- ID2SYM name ;;
  ary <- rb_ary_new4 args_count args ;;
  RUBY_CEXT_INVOKE "rb_funcallv" [object; sym; ary].

Definition rb_block_proc : M VALUE := RUBY_CEXT_INVOKE "rb_block_proc" [].

Definition rb_block_lambda : M VALUE := rb_block_proc.

Definition rb_block_given_p : M bool :=
  proc <- rb_block_proc ;;
  n <- NIL_P proc ;;
  ret (negb n).

Definition rb_funcall_with_block (recv : VALUE) (mid : ID) (argc : Z) (argv : list VALUE)
    (pass_procval : VALUE) : M VALUE :=
  sym <- ID2SYM mid ;;
  ary <- rb_ary_new4 argc argv ;;
  RUBY_CEXT_INVOKE "rb_funcall_with_block" [recv; sym; ary; pass_procval].

(** The last branch of [rb_block_call]: the native callback and its data
    cross the bridge together with the unwrapped call. *)
Definition rb_block_call_generic (object : VALUE) (name : ID) (args_count : Z)
    (args : list VALUE) (block_call_func : fnptr) (data : VALUE) : M VALUE :=
  o <- rb_tr_unwrap object ;;
  sym <- ID2SYM name ;;
  s <- rb_tr_unwrap sym ;;
  ary <- rb_ary_new4 args_count args ;;
  a <- rb_tr_unwrap ary ;;
  r <- polyglot_invoke RUBY_CEXT "rb_block_call"
         [o; s; a; Fun block_call_func; Ptr (Z.of_nat data)] ;;
  rb_tr_wrap r.

Definition rb_block_call (object : VALUE) (name : ID) (args_count : Z) (args : list VALUE)
    (block_call_func : fnptr) (data : VALUE) : M VALUE :=
  given <- rb_block_given_p ;;
  if given then
    proc <- rb_block_proc ;;
    rb_funcall_with_block object name args_count args proc
  else if decide (block_call_func = NULL) then
    rb_funcallv object name args_count args
  else
    rb_block_call_generic object name args_count args block_call_func data.


Definition rb_yield (value : VALUE) : M VALUE :=
  given <- rb_block_given_p ;;
  if given then RUBY_CEXT_INVOKE "rb_yield" [value]
  else RUBY_CEXT_INVOKE "yield_no_block" [].

Definition rb_yield_splat (values : VALUE) : M VALUE :=
  given <- rb_block_given_p ;;
  if given then RUBY_CEXT_INVOKE "rb_yield_splat" [values]
  else RUBY_CEXT_INVOKE "yield_no_block" [].

(** [polyglot_get_arg(k)] reads argument [k] of the running call; for a
    function declared [(int n, ...)] argument [0] is [n] and the variadic
    arguments start at [1]. *)
Definition polyglot_get_arg (varargs : list VALUE) (k : Z) : M VALUE :=
  read_argv varargs (k - 1).

Definition rb_yield_values (n : Z) (varargs : list VALUE) : M VALUE :=
  values <- rb_ary_new_capa n ;;
  _ <- for_loop 0 (Z.to_nat n)
         (fun i => v <- polyglot_get_arg varargs (1 + i) ;; rb_ary_store values i v) ;;
  rb_yield_splat values.

Definition rb_yield_values2 (n : Z) (argv : list VALUE) : M VALUE :=
  values <- rb_ary_new_capa n ;;
  _ <- for_loop 0 (Z.to_nat n)
         (fun i => v <- read_argv argv i ;; rb_ary_store values i v) ;;
  rb_yield_splat values.

Definition rb_thread_call_with_gvl (function : fnptr) (data1 : Z) : M raw :=
  polyglot_invoke RUBY_CEXT "rb_thread_call_with_gvl" [Fun function; Ptr data1].

Definition rb_thread_call_without_gvl (function : fnptr) (data1 : Z)
    (unblock_function : fnptr) (data2 : Z) : M raw :=
  let call_struct := mk_gvl_call_data function data1 in
  let unblock_struct := mk_unblock_function_data unblock_function data2 in
  wrapped_unblock_function <-
    (if decide (unblock_function = RUBY_UBF_IO) then
       q <- Qnil ;; rb_tr_unwrap q
     else ret (Fun FnCallUnblock)) ;;
  polyglot_invoke RUBY_CEXT "rb_thread_call_without_gvl"
    [Fun FnCallGvl; PtrGvl call_struct;
     wrapped_unblock_function; PtrUnblock unblock_struct].

Definition rb_iter_break_value (value : VALUE) : M unit :=
  _ <- RUBY_CEXT_INVOKE_NO_WRAP "rb_iter_break_value" [value] ;;
  rb_tr_error "rb_iter_break_value should not return".

Definition rb_iter_break : M unit :=
  q <- Qnil ;;
  rb_iter_break_value q.

(** *** ivar.c *)

Definition rb_iv_get (object : VALUE) (name : string) : M VALUE :=
  s <- rb_str_new_cstr name ;;
  id <- rb_to_id s ;;
  sym <- ID2SYM id ;;
  RUBY_CEXT_INVOKE "rb_ivar_get" [object; sym].

Definition rb_iv_set (object : VALUE) (name : string) (value : VALUE) : M VALUE :=
  s <- rb_str_new_cstr name ;;
  id <- rb_to_id s ;;
  sym <- ID2SYM id ;;
  _ <- RUBY_CEXT_INVOKE_NO_WRAP "rb_ivar_set" [object; sym; value] ;;
  ret value.

Definition rb_ivar_defined (object : VALUE) (id : ID) : M VALUE :=
  sym <- ID2SYM id ;;
  RUBY_CEXT_INVOKE "rb_ivar_defined" [object; sym].

Definition rb_ivar_get (object : VALUE) (name : ID) : M VALUE :=
  sym <- ID2SYM name ;;
  RUBY_CEXT_INVOKE "rb_ivar_get" [object; sym].

Definition rb_ivar_set (object : VALUE) (name : ID) (value : VALUE) : M VALUE :=
  sym <- ID2SYM name ;;
  _ <- RUBY_CEXT_INVOKE_NO_WRAP "rb_ivar_set" [object; sym; value] ;;
  ret value.

Definition rb_ivar_lookup (object : VALUE) (name : string) (default_value : VALUE) : M VALUE :=
  o <- rb_tr_unwrap object ;;
  d <- rb_tr_unwrap default_value ;;
  r <- polyglot_invoke RUBY_CEXT "rb_ivar_lookup" [o; CStr (c_str name); d] ;;
  rb_tr_wrap r.

Definition rb_attr_get (object : VALUE) (name : ID) : M VALUE :=
  sym <- ID2SYM name ;;
  q <- Qnil ;;
  RUBY_CEXT_INVOKE "rb_ivar_lookup" [object; sym; q].

(** *** printf.c *)

(** The branch for platforms other than Apple's: [vasprintf] fills the
    buffer, and a negative result is fatal. *)
Definition rb_enc_vsprintf (enc : rb_encoding) (format : string) (args : va_list) : M VALUE :=
  match vasprintf format args with
  | None => rb_tr_error "vasprintf error"
  | Some buffer => rb_enc_str_new_cstr buffer enc
  end.

Definition rb_enc_sprintf (enc : rb_encoding) (format : string) (ap : va_list) : M VALUE :=
  rb_enc_vsprintf enc format ap.

Definition rb_vsprintf (format : string) (args : va_list) : M VALUE :=
  rb_enc_vsprintf rb_ascii8bit_encoding format args.

Definition rb_sprintf (format : string) (ap : va_list) : M VALUE :=
  rb_vsprintf format ap.

(** *** The remaining forwarders of call.c *)

Definition rb_funcallv_public (object : VALUE) (name : ID) (args_count : Z)
    (args : list VALUE) : M VALUE :=
  sym <- ID2SYM name ;;
  ary <- rb_ary_new4 args_count args ;;
  RUBY_CEXT_INVOKE "rb_funcallv_public" [object; sym; ary].

Definition rb_apply (object : VALUE) (name : ID) (args : VALUE) : M VALUE :=
  sym <- ID2SYM name ;;
  RUBY_CEXT_INVOKE "rb_apply" [object; sym; args].

Definition rb_call_super (args_count : Z) (args : list VALUE) : M VALUE :=
  ary <- rb_ary_new4 args_count args ;;
  RUBY_CEXT_INVOKE "rb_call_super" [ary].

Definition rb_exec_recursive (func : fnptr) (obj arg : VALUE) : M VALUE :=
  o <- rb_tr_unwrap obj ;;
  a <- rb_tr_unwrap arg ;;
  r <- polyglot_invoke RUBY_CEXT "rb_exec_recursive" [Fun func; o; a] ;;
  rb_tr_wrap r.

(** The coercions of polyglot.h: a host boolean as a C [int] that is 0
    or 1, a host integer that fits 32 bits as a C [int]; anything else is
    not defined. *)
Definition polyglot_as_boolean (x : raw) : M Z :=
  match x with
  | Managed MTrue => ret 1
  | Managed MFalse => ret 0
  | _ => undefined
  end.

Definition polyglot_as_i32 (x : raw) : M Z :=
  match x with
  | Int z | Managed (MInt z) =>
      if decide (- 2 ^ 31 <= z < 2 ^ 31) then ret z else undefined
  | _ => undefined
  end.

Definition rb_sourceline : M Z :=
  r <- RUBY_CEXT_INVOKE_NO_WRAP "rb_sourceline" [] ;;
  polyglot_as_i32 r.

Definition rb_obj_method_arity (object : VALUE) (id : ID) : M Z :=
  sym <- ID2SYM id ;;
  r <- RUBY_CEXT_INVOKE_NO_WRAP "rb_obj_method_arity" [object; sym] ;;
  polyglot_as_i32 r.

Definition rb_obj_respond_to (object : VALUE) (id : ID) (priv : Z) : M Z :=
  o <- rb_tr_unwrap object ;;
  r <- polyglot_invoke RUBY_CEXT "rb_obj_respond_to" [o; rb_tr_id2sym id; Int priv] ;;
  polyglot_as_boolean r.

Definition rb_method_boundp (klass : VALUE) (id : ID) (ex : Z) : M Z :=
  k <- rb_tr_unwrap klass ;;
  r <- polyglot_invoke RUBY_CEXT "rb_method_boundp" [k; rb_tr_id2sym id; Int ex] ;;
  polyglot_as_i32 r.

(** Modelled from the spec: [rb_eLocalJumpError] and [rb_raise] live in
    exception.c, outside the sources at hand; [rb_raise] formats its
    message, builds the exception and raises it, and like [rb_exc_raise]
    it does not return. *)
Definition rb_eLocalJumpError : M VALUE := RUBY_CEXT_INVOKE "rb_eLocalJumpError" [].

Definition rb_raise (exception : VALUE) (format : string) (args : va_list) : M unit :=
  message <- rb_vsprintf format args ;;
  e <- rb_exc_new3 exception message ;;
  rb_exc_raise e.

Definition rb_need_block : M unit :=
  given <- rb_block_given_p ;;
  if negb given then
    cls <- rb_eLocalJumpError ;;
    rb_raise cls "no block given" []
  else ret tt.

(** *** The remaining functions of ivar.c and printf.c *)

Definition rb_obj_instance_variables (object : VALUE) : M VALUE :=
  RUBY_CEXT_INVOKE "rb_obj_instance_variables" [object].

Definition rb_ivar_foreach (obj : VALUE) (func : fnptr) (arg : Z) : M unit :=
  rb_tr_error "rb_ivar_foreach not implemented".

Definition rb_copy_generic_ivar (clone obj : VALUE) : M unit :=
  _ <- RUBY_CEXT_INVOKE_NO_WRAP "rb_copy_generic_ivar" [clone; obj] ;;
  ret tt.

Definition rb_free_generic_ivar (obj : VALUE) : M unit :=
  _ <- RUBY_CEXT_INVOKE_NO_WRAP "rb_free_generic_ivar" [obj] ;;
  ret tt.

Definition rb_f_sprintf (argc : Z) (argv : list VALUE) : M VALUE :=
  ary <- rb_ary_new4 argc argv ;;
  RUBY_CEXT_INVOKE "rb_f_sprintf" [ary].

End Bridge.

Notation "x <- m ;; k" := (bind m (fun x => k))
  (at level 100, m at next level, right associativity).

(** ** A reference host *)

Module RefHost.

(** The block a method is called with. *)
Inductive blockarg : Type :=
| NoBlock
| ProcBlock (p : ref)
| NativeBlock (f : fnptr) (data : Z).

Inductive hobj : Type :=
| HArray (elems : list ref)
| HString (bytes : string) (enc : rb_encoding)
| HException (cls : string) (message : string)
| HProc (body : list ref -> outcome ref)
| HEnumerator (receiver : ref) (meth : string).

(** Modelled from the spec: the host runtime is outside the sources at
    hand.  Its state holds the managed heap, the instance variables of
    every object, the block of the calling frame ([MNil] when there is none)
    and whether a blocking region is to be cancelled. *)
Record state : Type := mkState {
  heap : list hobj;
  ivars : gmap (ref * string) ref;
  block : ref;
  interrupt : bool
}.

Definition set_heap (h : list hobj) (s : state) : state :=
  mkState h (ivars s) (block s) (interrupt s).

Definition set_ivars (m : gmap (ref * string) ref) (s : state) : state :=
  mkState (heap s) m (block s) (interrupt s).

Definition alloc (o : hobj) (s : state) : ref * state :=
  (MObj (length (heap s)), set_heap (heap s ++ [o]) s).

Definition finish (r : ref) (s : state) : hostprog state := HDone (Ret (Managed r)) s.

Definition finish_new (o : hobj) (s : state) : hostprog state :=
  let '(r, s') := alloc o s in finish r s'.

Definition raise (cls message : string) (s : state) : hostprog state :=
  let '(e, s') := alloc (HException cls message) s in
  HDone (Jump (JRaise e)) s'.

Definition array_at (s : state) (r : ref) : option (list ref) :=
  match r with
  | MObj a => match heap s !! a with Some (HArray l) => Some l | _ => None end
  | _ => None
  end.

Definition string_at (s : state) (r : ref) : option (string * rb_encoding) :=
  match r with
  | MObj a => match heap s !! a with Some (HString b e) => Some (b, e) | _ => None end
  | _ => None
  end.

Definition proc_at (s : state) (r : ref) : option (list ref -> outcome ref) :=
  match r with
  | MObj a => match heap s !! a with Some (HProc body) => Some body | _ => None end
  | _ => None
  end.

(** [ary[i] = v] of the managed array: a negative index counts from the
    end, a store past the end pads with nil. *)
Definition ary_store (l : list ref) (i : Z) (v : ref) : option (list ref) :=
  let len := Z.of_nat (length l) in
  let j := if decide (i < 0) then i + len else i in
  if decide (j < 0) then None
  else if decide (j < len) then Some (<[Z.to_nat j := v]> l)
  else Some (l ++ replicate (Z.to_nat (j - len)) MNil ++ [v]).

Definition arity_ok (argc min max : Z) : bool :=
  bool_decide (min <= argc) && (bool_decide (max = -1) || bool_decide (argc <= max)).

Definition arity_error_string (argc min max : Z) : string :=
  if decide (min = max) then
    "wrong number of arguments (given " +:+ pretty argc +:+ ", expected " +:+ pretty min +:+ ")"
  else if decide (max = -1) then
    "wrong number of arguments (given " +:+ pretty argc +:+ ", expected " +:+ pretty min +:+ "+)"
  else
    "wrong number of arguments (given " +:+ pretty argc +:+ ", expected "
      +:+ pretty min +:+ ".." +:+ pretty max +:+ ")".

Definition done_with (o : outcome ref) (s : state) : hostprog state :=
  match o with
  | Ret r => finish r s
  | Jump j => HDone (Jump j) s
  | Fatal msg => HDone (Fatal msg) s
  | Undefined => HDone Undefined s
  end.

(** Yielding to the block of the calling frame. *)
Definition yield (args : list ref) (s : state) : hostprog state :=
  match proc_at s (block s) with
  | Some body => done_with (body args) s
  | None => raise "LocalJumpError" "no block given (yield)" s
  end.

Fixpoint each_elem (body : list ref -> outcome ref) (l : list ref) : outcome unit :=
  match l with
  | [] => Ret tt
  | x :: rest =>
      match body [x] with
      | Ret _ => each_elem body rest
      | Jump j => Jump j
      | Fatal msg => Fatal msg
      | Undefined => Undefined
      end
  end.

(** The methods the reference host knows: [Class#new] for exceptions,
    [Array#each] and [Proc#call]. *)
Definition dispatch (recv : ref) (name : string) (args : list ref) (blk : blockarg)
    (s : state) : hostprog state :=
  if String.eqb name "new" then
    match recv, args with
    | MClass c, [m] =>
        match string_at s m with
        | Some (bytes, _) => finish_new (HException c bytes) s
        | None => raise "TypeError" "no implicit conversion into String" s
        end
    | _, _ => raise "NoMethodError" "undefined method" s
    end
  else if String.eqb name "each" then
    match array_at s recv, blk with
    | Some l, ProcBlock p =>
        match proc_at s p with
        | Some body =>
            match each_elem body l with
            | Ret _ => finish recv s
            | Jump j => HDone (Jump j) s
            | Fatal msg => HDone (Fatal msg) s
            | Undefined => HDone Undefined s
            end
        | None => raise "TypeError" "wrong argument type (expected Proc)" s
        end
    | Some l, NoBlock => finish_new (HEnumerator recv "each") s
    | Some l, NativeBlock f d => raise "NotImplementedError" "native block" s
    | None, _ => raise "NoMethodError" "undefined method" s
    end
  else if String.eqb name "call" then
    match proc_at s recv with
    | Some body => done_with (body args) s
    | None => raise "NoMethodError" "undefined method" s
    end
  else raise "NoMethodError" "undefined method" s.

Definition bad_args (s : state) : hostprog state :=
  raise "ArgumentError" "wrong arguments for the operation" s.

(** Modelled from the spec: the capabilities the host exposes under
    [RUBY_CEXT] (sections 4.3, 6 and 7), each named as the wrapper that
    invokes it.  An unknown name is reported as an error, and so are
    arguments of the wrong kind: every instance-variable operation takes the
    name as a symbol.  The generic block call lets the host resolve the
    block of the calling frame (section 4.3); without one the native
    callback and its data are the block. *)
Definition cext_invoke (name : string) (args : list raw) (s : state) : hostprog state :=
  if String.eqb name "rb_block_proc" then finish (block s) s
  else if String.eqb name "yield_no_block" then
    raise "LocalJumpError" "no block given (yield)" s
  else if String.eqb name "rb_yield" then
    match args with
    | [Managed v] => yield [v] s
    | _ => bad_args s
    end
  else if String.eqb name "rb_yield_splat" then
    match args with
    | [Managed a] =>
        match array_at s a with
        | Some l => yield l s
        | None => raise "TypeError" "no implicit conversion into Array" s
        end
    | _ => bad_args s
    end
  else if String.eqb name "rb_funcallv" then
    match args with
    | [Managed recv; Managed (MSym m); Managed a] =>
        match array_at s a with
        | Some l => dispatch recv m l NoBlock s
        | None => bad_args s
        end
    | _ => bad_args s
    end
  else if String.eqb name "rb_funcall_with_block" then
    match args with
    | [Managed recv; Managed (MSym m); Managed a; Managed p] =>
        match array_at s a with
        | Some l => dispatch recv m l (if decide (p = MNil) then NoBlock else ProcBlock p) s
        | None => bad_args s
        end
    | _ => bad_args s
    end
  else if String.eqb name "rb_block_call" then
    match args with
    | [Managed recv; Managed (MSym m); Managed a; Fun f; Ptr d] =>
        match array_at s a with
        | Some l =>
            dispatch recv m l
              (if decide (block s = MNil) then NativeBlock f d else ProcBlock (block s)) s
        | None => bad_args s
        end
    | _ => bad_args s
    end
  else if String.eqb name "rb_check_arity" then
    match args with
    | [Int argc; Int min; Int max] =>
        if arity_ok argc min max then finish MNil s
        else raise "ArgumentError" (arity_error_string argc min max) s
    | _ => bad_args s
    end
  else if String.eqb name "rb_arity_error_string" then
    match args with
    | [Int argc; Int min; Int max] =>
        finish_new (HString (arity_error_string argc min max) UTF_8) s
    | _ => bad_args s
    end
  else if String.eqb name "rb_eArgError" then finish (MClass "ArgumentError") s
  else if String.eqb name "rb_exc_raise" then
    match args with
    | [Managed e] => HDone (Jump (JRaise e)) s
    | _ => bad_args s
    end
  else if String.eqb name "rb_iter_break_value" then
    match args with
    | [Managed v] => HDone (Jump (JBreak v)) s
    | _ => bad_args s
    end
  else if String.eqb name "rb_ary_new_capa" then
    match args with
    | [Int n] =>
        if decide (n < 0) then raise "ArgumentError" "negative array size (or size too big)" s
        else finish_new (HArray []) s
    | _ => bad_args s
    end
  else if String.eqb name "rb_ary_store" then
    match args with
    | [Managed (MObj a); Int i; Managed v] =>
        match heap s !! a with
        | Some (HArray l) =>
            match ary_store l i v with
            | Some l' => finish v (set_heap (<[a := HArray l']> (heap s)) s)
            | None => raise "IndexError" "index too small for array" s
            end
        | _ => raise "TypeError" "no implicit conversion into Array" s
        end
    | _ => bad_args s
    end
  else if String.eqb name "rb_str_new_cstr" then
    match args with
    | [CStr bytes] => finish_new (HString bytes ASCII_8BIT) s
    | _ => bad_args s
    end
  else if String.eqb name "rb_enc_str_new_cstr" then
    match args with
    | [CStr bytes; PtrEnc enc] => finish_new (HString bytes enc) s
    | _ => bad_args s
    end
  else if String.eqb name "rb_to_id" then
    match args with
    | [Managed (MSym n)] => finish (MSym n) s
    | [Managed r] =>
        match string_at s r with
        | Some (bytes, _) => finish (MSym bytes) s
        | None => raise "TypeError" "is not a symbol nor a string" s
        end
    | _ => bad_args s
    end
  else if String.eqb name "rb_ivar_get" then
    match args with
    | [Managed o; Managed (MSym n)] => finish (default MNil (ivars s !! (o, n))) s
    | _ => bad_args s
    end
  else if String.eqb name "rb_ivar_set" then
    match args with
    | [Managed o; Managed (MSym n); Managed v] =>
        finish v (set_ivars (<[(o, n) := v]> (ivars s)) s)
    | _ => bad_args s
    end
  else if String.eqb name "rb_ivar_defined" then
    match args with
    | [Managed o; Managed (MSym n)] =>
        finish (match ivars s !! (o, n) with Some _ => MTrue | None => MFalse end) s
    | _ => bad_args s
    end
  else if String.eqb name "rb_ivar_lookup" then
    match args with
    | [Managed o; Managed (MSym n); Managed d] =>
        finish (default d (ivars s !! (o, n))) s
    | _ => bad_args s
    end
  else if String.eqb name "rb_thread_call_with_gvl" then
    match args with
    | [Fun f; data] => HCall f data (fun r => HDone (Ret r) s)
    | _ => bad_args s
    end
  else if String.eqb name "rb_thread_call_without_gvl" then
    match args with
    | [Fun f; data1; unblock; data2] =>
        let run := HCall f data1 (fun r => HDone (Ret r) s) in
        if interrupt s then
          match unblock with
          | Fun u => HCall u data2 (fun _ => run)
          | _ => run
          end
        else run
    | _ => bad_args s
    end
  else raise "NoMethodError" "undefined method for Truffle::CExt" s.

Fixpoint managed_all (args : list raw) : option (list ref) :=
  match args with
  | [] => Some []
  | Managed r :: rest => cons r <$> managed_all rest
  | _ :: _ => None
  end.

Definition invoke (target : raw) (name : string) (args : list raw) (s : state)
    : hostprog state :=
  match target with
  | Managed MCext => cext_invoke name args s
  | Managed recv =>
      match managed_all args with
      | Some l => dispatch recv name l NoBlock s
      | None => bad_args s
      end
  | _ => raise "TypeError" "not a managed receiver" s
  end.

(** The reference platform, for any choice of extension functions. *)
Definition platform (fns : nat -> Z -> Z) : Platform :=
  {| HostState := state; host_invoke := invoke; natives := fns |}.

End RefHost.

(** ** What a run lets the host and the extension observe *)

Section Observations.

Context `{Platform}.

(** The invocations and the indirect calls a run added. *)
Definition new_calls (w w' : World) : list invocation :=
  drop (length (calls w)) (calls w').

Definition new_derefs (w w' : World) : list native_call :=
  drop (length (derefs w)) (derefs w').

Definition is_unblock_call (c : native_call) : bool :=
  match c with UnblockCall _ _ => true | GvlCall _ _ => false end.

(** The function pointers an argument list hands to the host. *)
Definition callables (args : list raw) : list fnptr :=
  omap (fun x => match x with Fun f => Some f | _ => None end) args.

(** A host program that calls back only through pointers it was given. *)
Inductive honest (allowed : list fnptr) : hostprog HostState -> Prop :=
| honest_done o s : honest allowed (HDone o s)
| honest_call f arg k :
    f ∈ allowed ->
    (forall r, honest allowed (k r)) ->
    honest allowed (HCall f arg k).

Definition honest_host : Prop :=
  forall target name args s, honest (callables args) (host_invoke target name args s).

(** Every invocation a computation issues has a name in [names], and the
    computation leaves earlier invocations alone. *)
Definition emits {A} (names : list string) (m : M A) : Prop :=
  forall w o w', m w = (o, w') ->
    exists l, calls w' = calls w ++ l /\ Forall (fun i => inv_name i ∈ names) l.


(** What a run hands back, with the handle it returns resolved to the
    managed reference it denotes. *)
Definition result_of (x : outcome VALUE * World) : outcome (option ref) :=
  match x with
  | (Ret v, w') => Ret (handles w' !! v)
  | (Jump j, _) => Jump j
  | (Fatal msg, _) => Fatal msg
  | (Undefined, _) => Undefined
  end.

(** A computation that keeps every handle: what was valid stays valid and
    denotes the same reference, and a table in which every reference owns
    one slot stays so. *)
Definition keeps_handles {A} (m : M A) : Prop :=
  forall w o w', m w = (o, w') ->
    (forall v r, handles w !! v = Some r -> handles w' !! v = Some r) /\
    (Handle.wf (handles w) -> Handle.wf (handles w')).

(** A host program that calls back only through function pointers it was
    given, on data pointers it was given. *)
Inductive faithful (args : list raw) : hostprog HostState -> Prop :=
| faithful_done o s : faithful args (HDone o s)
| faithful_call f arg k :
    Fun f ∈ args ->
    arg ∈ args ->
    (forall r, faithful args (k r)) ->
    faithful args (HCall f arg k).

Definition faithful_host : Prop :=
  forall target name args s, faithful args (host_invoke target name args s).

End Observations.

(** ** Sample inputs on the reference host *)

Module Sample.

Import RefHost.

Definition fns (id : nat) (p : Z) : Z := p + Z.of_nat id.

Definition P : Platform := platform fns.

Definition world (t : Handle.table) (s : state) : @World P := @mkWorld P t s [] [].

(** No block in the calling frame; the heap holds the array [[1, 2]]. *)
Definition no_block : state :=
  mkState [HArray [MInt 1; MInt 2]] ∅ MNil false.

(** The calling frame has a block, the proc at address 1. *)
Definition with_block : state :=
  mkState [HArray [MInt 1; MInt 2]; HProc (fun args => Ret (default MNil (head args)))]
          ∅ (MObj 1) false.

(** A blocking region the host is about to cancel. *)
Definition interrupted : state := mkState [] ∅ MNil true.

Definition w_no_block : @World P := world [MObj 0; MInt 7] no_block.
Definition w_with_block : @World P := world [MObj 0; MInt 7; MInt 8; MInt 9] with_block.
Definition w_interrupted : @World P := world [] interrupted.

End Sample.

(** What a formatted-string constructor built: the handle it returned
    denotes a managed string with these bytes and this encoding. *)
Definition builds_string {fns : nat -> Z -> Z}
    (x : outcome VALUE * @World (RefHost.platform fns))
    (bytes : string) (enc : rb_encoding) : Prop :=
  exists v r, x.1 = Ret v /\ handles x.2 !! v = Some r /\
    RefHost.string_at (host x.2) r = Some (bytes, enc).

(** A format without conversion specifications: no [%] before its end. *)
Definition plain_format (format : string) : Prop :=
  "%"%char ∉ list_ascii_of_string (c_str format).

(** ** The handle table *)

Section HandleFacts.

Implicit Types (r : ref) (t : Handle.table) (h : VALUE).

Lemma find_Some r t h :
  Handle.find r t = Some h <-> t !! h = Some r /\ forall j, (j < h)%nat -> t !! j ≠ Some r.
Proof.
  unfold Handle.find. rewrite fmap_Some. split.
  - intros [[i x] [Hf ->]]. apply list_find_Some in Hf as (Hl & <- & Hmin).
    split; [done|]. intros j Hj Hj'. by eapply Hmin.
  - intros [Hl Hmin]. exists (h, r). split; [|done].
    apply list_find_Some. split_and!; [done..|].
    intros j y Hy Hj ->. by eapply Hmin.
Qed.

Lemma find_None r t : Handle.find r t = None <-> r ∉ t.
Proof.
  unfold Handle.find. rewrite fmap_None, list_find_None, Forall_forall.
  split.
  - intros Hno Hin. by eapply Hno.
  - intros Hno x Hx ->. done.
Qed.

Lemma wrap_known r t h :
  Handle.wf t -> t !! h = Some r -> Handle.wrap r t = (h, t).
Proof.
  intros Hwf Hl. unfold Handle.wrap.
  assert (Handle.find r t = Some h) as ->; [|done].
  apply find_Some. split; [done|]. intros j Hj Hj'.
  pose proof (NoDup_lookup _ _ _ _ Hwf Hl Hj'). lia.
Qed.

Lemma wrap_extends r t : exists l, (Handle.wrap r t).2 = t ++ l.
Proof.
  unfold Handle.wrap. destruct (Handle.find r t).
  - exists []. by rewrite app_nil_r.
  - by exists [r].
Qed.

Lemma wrap_lookup r t : (Handle.wrap r t).2 !! (Handle.wrap r t).1 = Some r.
Proof.
  unfold Handle.wrap. destruct (Handle.find r t) as [h|] eqn:Hf; simpl.
  - by apply find_Some in Hf as [? _].
  - by apply list_lookup_middle.
Qed.

Lemma wrap_wf r t : Handle.wf t -> Handle.wf (Handle.wrap r t).2.
Proof.
  unfold Handle.wf, Handle.wrap. intros Hwf.
  destruct (Handle.find r t) eqn:Hf; simpl; [done|].
  apply find_None in Hf. apply NoDup_app. split_and!; [done| |apply NoDup_singleton].
  intros x Hx ->%list_elem_of_singleton. done.
Qed.

Lemma wrap_keeps r t h r' :
  t !! h = Some r' -> (Handle.wrap r t).2 !! h = Some r'.
Proof.
  intros Hl. destruct (wrap_extends r t) as [l ->]. by apply lookup_app_l_Some.
Qed.

End HandleFacts.

(** C2: [wrap] and [unwrap] are mutual inverses on a table in which every
    reference owns one slot: unwrapping the handle [wrap] returns gives the
    reference back, [wrap] keeps the table in that shape, the handle it
    returns is the one [wrap] gives again for what it unwraps to, and any
    handle that is valid in the table is returned by [wrap] of its
    reference, with the table unchanged. *)
Theorem wrap_unwrap_inverse (t : Handle.table) :
  Handle.wf t ->
  (forall r, Handle.unwrap (Handle.wrap r t).1 (Handle.wrap r t).2 = Some r) /\
  (forall r, Handle.wf (Handle.wrap r t).2 /\
     Handle.wrap r (Handle.wrap r t).2 = Handle.wrap r t) /\
  (forall h r, Handle.unwrap h t = Some r -> Handle.wrap r t = (h, t)).
Proof.
  intros Hwf. split_and!.
  - intros r. apply wrap_lookup.
  - intros r. split; [by apply wrap_wf|].
    pose proof (wrap_lookup r t) as Hl.
    rewrite (wrap_known r _ _ (wrap_wf r t Hwf) Hl).
    by destruct (Handle.wrap r t).
  - intros h r Hu. by apply wrap_known.
Qed.

Lemma wrap_unwrap_inverse_witness :
  Handle.unwrap (Handle.wrap (MInt 5) [MNil; MObj 0]).1
                (Handle.wrap (MInt 5) [MNil; MObj 0]).2 = Some (MInt 5) /\
  Handle.wrap (MObj 0) [MNil; MObj 0] = (1%nat, [MNil; MObj 0]).
Proof.
  assert (Handle.wf [MNil; MObj 0]) as Hwf.
  { unfold Handle.wf. apply (bool_decide_unpack _). vm_compute. reflexivity. }
  destruct (wrap_unwrap_inverse [MNil; MObj 0] Hwf) as (Ha & _ & Hc).
  split; [apply Ha | apply Hc; reflexivity].
Defined.

(** ** Frame properties of the bridge *)

Section Frames.

Context `{Platform}.

Lemma bind_Ret {A B} (m : M A) (k : A -> M B) w a w0 :
  m w = (Ret a, w0) -> (x <- m ;; k x) w = k a w0.
Proof. unfold bind. by intros ->. Qed.

Lemma bind_assoc {A B C} (m : M A) (k1 : A -> M B) (k2 : B -> M C) w :
  (y <- (x <- m ;; k1 x) ;; k2 y) w = (x <- m ;; (y <- k1 x ;; k2 y)) w.
Proof. unfold bind. by destruct (m w) as [[a| | |] w0]. Qed.

Lemma bind_returns {A B} (m : M A) (k : A -> M B) w :
  (forall a w0, returns (k a w0).1 = false) ->
  returns ((x <- m ;; k x) w).1 = false.
Proof.
  intros Hk. unfold bind. destruct (m w) as [[a| | |] w0]; simpl; auto.
Qed.

Lemma for_loop_ext (body1 body2 : Z -> M unit) i count w :
  (forall j w0, body1 j w0 = body2 j w0) ->
  for_loop i count body1 w = for_loop i count body2 w.
Proof.
  intros Hbody. revert i w. induction count as [|count IH]; intros i w; simpl; [done|].
  unfold bind. rewrite Hbody. destruct (body2 i w) as [[[]| | |] w0]; auto.
Qed.

Lemma rb_tr_unwrap_inv v w o w' : rb_tr_unwrap v w = (o, w') -> w' = w.
Proof.
  unfold rb_tr_unwrap. destruct (Handle.unwrap v (handles w)); congruence.
Qed.

Lemma rb_tr_unwrap_valid v r w :
  handles w !! v = Some r -> rb_tr_unwrap v w = (Ret (Managed r), w).
Proof. unfold rb_tr_unwrap, Handle.unwrap. by intros ->. Qed.

Lemma unwrap_all_inv args w o w' : unwrap_all args w = (o, w') -> w' = w.
Proof.
  revert o w'. induction args as [|a args IH]; intros o w'; simpl.
  - unfold ret. congruence.
  - unfold bind. destruct (rb_tr_unwrap a w) as [[r| | |] w0] eqn:Ha;
      apply rb_tr_unwrap_inv in Ha as ->; try congruence.
    destruct (unwrap_all args w) as [[rs| | |] w1] eqn:Hrs;
      specialize (IH _ _ eq_refl) as ->; unfold ret; congruence.
Qed.

Lemma rb_tr_wrap_frame x w o w' :
  rb_tr_wrap x w = (o, w') ->
  calls w' = calls w /\ host w' = host w /\ derefs w' = derefs w.
Proof.
  unfold rb_tr_wrap. destruct x; try (intros [= _ <-]; done).
  destruct (Handle.wrap r (handles w)). by intros [= _ <-].
Qed.

Lemma call_fnptr_frame tag f d w o w' :
  call_fnptr tag f d w = (o, w') ->
  handles w' = handles w /\ calls w' = calls w /\ derefs w' = derefs w ++ [tag f d].
Proof. unfold call_fnptr. destruct f; intros [= _ <-]; done. Qed.

Lemma call_native_frame f arg w o w' :
  call_native f arg w = (o, w') -> handles w' = handles w /\ calls w' = calls w.
Proof.
  unfold call_native, call_gvl_call_function, call_unblock_function, undefined, ret, bind.
  destruct f; try (intros [= _ <-]; done).
  - destruct arg; try (intros [= _ <-]; done).
    destruct (call_fnptr _ _ _ w) as [[r| | |] w0] eqn:Hc;
      apply call_fnptr_frame in Hc as (? & ? & ?); intros [= _ <-]; done.
  - destruct arg; try (intros [= _ <-]; done).
    destruct (call_fnptr _ _ _ w) as [[r| | |] w0] eqn:Hc;
      apply call_fnptr_frame in Hc as (? & ? & ?); intros [= _ <-]; done.
  - destruct arg; intros [= _ <-]; done.
Qed.

Lemma run_host_frame p w o w' :
  run_host p w = (o, w') -> handles w' = handles w /\ calls w' = calls w.
Proof.
  revert w. induction p as [o0 s|f arg k IH]; intros w; simpl.
  - intros [= _ <-]. done.
  - unfold bind. destruct (call_native f arg w) as [[r| | |] w0] eqn:Hc;
      apply call_native_frame in Hc as [Hh Hc]; try (intros [= _ <-]; done).
    intros [Hh' Hc']%IH. split; congruence.
Qed.

Lemma polyglot_invoke_frame target name args w o w' :
  polyglot_invoke target name args w = (o, w') ->
  handles w' = handles w /\ calls w' = calls w ++ [Invoke target name args].
Proof. unfold polyglot_invoke. intros [Hh Hc]%run_host_frame. done. Qed.

Lemma rb_block_proc_calls w o w' :
  rb_block_proc w = (o, w') ->
  calls w' = calls w ++ [Invoke RUBY_CEXT "rb_block_proc" []].
Proof.
  unfold rb_block_proc, RUBY_CEXT_INVOKE, RUBY_CEXT_INVOKE_NO_WRAP. simpl unwrap_all.
  unfold bind at 1 2. unfold ret at 1.
  destruct (polyglot_invoke _ _ _ w) as [[r| | |] w0] eqn:Hp;
    apply polyglot_invoke_frame in Hp as [_ Hc]; try (intros [= _ <-]; done).
  intros (Hc' & _)%rb_tr_wrap_frame. congruence.
Qed.

Lemma rb_block_given_p_calls w o w' :
  rb_block_given_p w = (o, w') ->
  calls w' = calls w ++ [Invoke RUBY_CEXT "rb_block_proc" []].
Proof.
  unfold rb_block_given_p, NIL_P. unfold bind at 1.
  destruct (rb_block_proc w) as [[p| | |] w0] eqn:Hp;
    apply rb_block_proc_calls in Hp; try (intros [= _ <-]; done).
  unfold bind, ret.
  destruct (rb_tr_unwrap p w0) as [[r| | |] w1] eqn:Hu;
    apply rb_tr_unwrap_inv in Hu as ->; intros [= _ <-]; done.
Qed.

End Frames.

(** ** Pass-through forwarders *)

Section Forwarders.

Context `{Platform}.

(** C9: when the bridge's arity check returns, [rb_check_arity] returns
    its [argc] argument, whatever the bridge handed back. *)
Theorem rb_check_arity_returns_argc (argc min max : Z) (w : World) (r : raw) (w' : World) :
  polyglot_invoke RUBY_CEXT "rb_check_arity" [Int argc; Int min; Int max] w = (Ret r, w') ->
  rb_check_arity argc min max w = (Ret argc, w').
Proof. intros Hinv. unfold rb_check_arity. by rewrite (bind_Ret _ _ _ _ _ Hinv). Qed.

(** C10: when the bridge's set operation returns, [rb_ivar_set] and
    [rb_iv_set] return the very handle they were given as [value]; what
    the bridge handed back is dropped. *)
Theorem ivar_set_returns_value (object value : VALUE) (w : World) :
  (forall name sym w1 r w2,
      ID2SYM name w = (Ret sym, w1) ->
      RUBY_CEXT_INVOKE_NO_WRAP "rb_ivar_set" [object; sym; value] w1 = (Ret r, w2) ->
      rb_ivar_set object name value w = (Ret value, w2)) /\
  (forall name s w1 id w2 sym w3 r w4,
      rb_str_new_cstr name w = (Ret s, w1) ->
      rb_to_id s w1 = (Ret id, w2) ->
      ID2SYM id w2 = (Ret sym, w3) ->
      RUBY_CEXT_INVOKE_NO_WRAP "rb_ivar_set" [object; sym; value] w3 = (Ret r, w4) ->
      rb_iv_set object name value w = (Ret value, w4)).
Proof.
  split.
  - intros name sym w1 r w2 Hsym Hset. unfold rb_ivar_set.
    rewrite (bind_Ret _ _ _ _ _ Hsym), (bind_Ret _ _ _ _ _ Hset). done.
  - intros name s w1 id w2 sym w3 r w4 Hs Hid Hsym Hset. unfold rb_iv_set.
    rewrite (bind_Ret _ _ _ _ _ Hs), (bind_Ret _ _ _ _ _ Hid),
      (bind_Ret _ _ _ _ _ Hsym), (bind_Ret _ _ _ _ _ Hset). done.
Qed.

(** C6: [rb_error_arity] and [rb_iter_break_value] never return to their
    caller, on any host and for any arguments.  Each ends in a bridge
    invocation that is meant to leave by a non-local exit: that exit is
    passed on, and an invocation that returns is turned into a fatal
    error.  [rb_error_arity] asks the host for the message of the arity
    [argc], [min], [max], builds the [ArgumentError] from it and raises that
    exception; an exit of one of the steps on the way is passed on as well. *)
Theorem raisers_never_return :
  (forall argc min max w, returns (rb_error_arity argc min max w).1 = false) /\
  (forall value w, returns (rb_iter_break_value value w).1 = false) /\
  (forall value w j w',
      RUBY_CEXT_INVOKE_NO_WRAP "rb_iter_break_value" [value] w = (Jump j, w') ->
      rb_iter_break_value value w = (Jump j, w')) /\
  (forall value w r w',
      RUBY_CEXT_INVOKE_NO_WRAP "rb_iter_break_value" [value] w = (Ret r, w') ->
      rb_iter_break_value value w = (Fatal "rb_iter_break_value should not return", w')) /\
  (forall exception w j w',
      RUBY_CEXT_INVOKE_NO_WRAP "rb_exc_raise" [exception] w = (Jump j, w') ->
      rb_exc_raise exception w = (Jump j, w')) /\
  (forall exception w r w',
      RUBY_CEXT_INVOKE_NO_WRAP "rb_exc_raise" [exception] w = (Ret r, w') ->
      rb_exc_raise exception w = (Fatal "rb_exc_raise should not return", w')) /\
  (forall argc min max w cls w1 s w2 message w3 exc w4,
      rb_eArgError w = (Ret cls, w1) ->
      polyglot_invoke RUBY_CEXT "rb_arity_error_string" [Int argc; Int min; Int max] w1
        = (Ret s, w2) ->
      rb_tr_wrap s w2 = (Ret message, w3) ->
      rb_exc_new3 cls message w3 = (Ret exc, w4) ->
      rb_error_arity argc min max w = rb_exc_raise exc w4 /\
      (forall j w5,
          RUBY_CEXT_INVOKE_NO_WRAP "rb_exc_raise" [exc] w4 = (Jump j, w5) ->
          rb_error_arity argc min max w = (Jump j, w5)) /\
      (forall r w5,
          RUBY_CEXT_INVOKE_NO_WRAP "rb_exc_raise" [exc] w4 = (Ret r, w5) ->
          rb_error_arity argc min max w = (Fatal "rb_exc_raise should not return", w5))) /\
  (forall argc min max w cls w1 j w2,
      rb_eArgError w = (Ret cls, w1) ->
      polyglot_invoke RUBY_CEXT "rb_arity_error_string" [Int argc; Int min; Int max] w1
        = (Jump j, w2) ->
      rb_error_arity argc min max w = (Jump j, w2)) /\
  (forall argc min max w cls w1 s w2 message w3 j w4,
      rb_eArgError w = (Ret cls, w1) ->
      polyglot_invoke RUBY_CEXT "rb_arity_error_string" [Int argc; Int min; Int max] w1
        = (Ret s, w2) ->
      rb_tr_wrap s w2 = (Ret message, w3) ->
      rb_exc_new3 cls message w3 = (Jump j, w4) ->
      rb_error_arity argc min max w = (Jump j, w4)).
Proof.
  assert (forall exception w j w',
      RUBY_CEXT_INVOKE_NO_WRAP "rb_exc_raise" [exception] w = (Jump j, w') ->
      rb_exc_raise exception w = (Jump j, w')) as Hpass.
  { intros exception w j w' Hinv. unfold rb_exc_raise, bind. by rewrite Hinv. }
  assert (forall exception w r w',
      RUBY_CEXT_INVOKE_NO_WRAP "rb_exc_raise" [exception] w = (Ret r, w') ->
      rb_exc_raise exception w = (Fatal "rb_exc_raise should not return", w')) as Hback.
  { intros exception w r w' Hinv. unfold rb_exc_raise.
    by rewrite (bind_Ret _ _ _ _ _ Hinv). }
  split_and!; try done.
  - intros argc min max w. unfold rb_error_arity.
    do 4 (apply bind_returns; intros).
    unfold rb_exc_raise. apply bind_returns. reflexivity.
  - intros value w. unfold rb_iter_break_value. apply bind_returns. reflexivity.
  - intros value w j w' Hinv. unfold rb_iter_break_value, bind. by rewrite Hinv.
  - intros value w r w' Hinv. unfold rb_iter_break_value.
    by rewrite (bind_Ret _ _ _ _ _ Hinv).
  - intros argc min max w cls w1 s w2 message w3 exc w4 Hcls Hs Hmsg Hexc.
    assert (rb_error_arity argc min max w = rb_exc_raise exc w4) as Hrun.
    { unfold rb_error_arity.
      by rewrite (bind_Ret _ _ _ _ _ Hcls), (bind_Ret _ _ _ _ _ Hs),
        (bind_Ret _ _ _ _ _ Hmsg), (bind_Ret _ _ _ _ _ Hexc). }
    split_and!; [done| |].
    + intros j w5 Hinv. rewrite Hrun. by apply Hpass.
    + intros r w5 Hinv. rewrite Hrun. by apply Hback with r.
  - intros argc min max w cls w1 j w2 Hcls Hs. unfold rb_error_arity.
    rewrite (bind_Ret _ _ _ _ _ Hcls). unfold bind. by rewrite Hs.
  - intros argc min max w cls w1 s w2 message w3 j w4 Hcls Hs Hmsg Hexc.
    unfold rb_error_arity.
    rewrite (bind_Ret _ _ _ _ _ Hcls), (bind_Ret _ _ _ _ _ Hs), (bind_Ret _ _ _ _ _ Hmsg).
    unfold bind. by rewrite Hexc.
Qed.

End Forwarders.

(** ** Which operations a wrapper invokes *)

Section Emits.

Context `{Platform}.

Lemma emits_ret {A} names (a : A) : emits names (ret a).
Proof.
  intros w o w' [= _ <-]. exists []. by rewrite app_nil_r.
Qed.

Lemma emits_silent {A} names (m : M A) :
  (forall w o w', m w = (o, w') -> calls w' = calls w) -> emits names m.
Proof.
  intros Hm w o w' Hrun. exists []. rewrite app_nil_r. eauto.
Qed.

Lemma emits_bind {A B} names (m : M A) (k : A -> M B) :
  emits names m -> (forall a, emits names (k a)) -> emits names (x <- m ;; k x).
Proof.
  intros Hm Hk w o w'. unfold bind.
  destruct (m w) as [[a| | |] w0] eqn:Hrun; try (intros [= <- <-]; by eapply Hm).
  intros Hrun'. destruct (Hm _ _ _ Hrun) as (l1 & Hc1 & Hl1).
  destruct (Hk a _ _ _ Hrun') as (l2 & Hc2 & Hl2).
  exists (l1 ++ l2). rewrite Hc2, Hc1, app_assoc. split; [done|]. by apply Forall_app.
Qed.

Lemma emits_weaken {A} names names' (m : M A) :
  names ⊆ names' -> emits names m -> emits names' m.
Proof.
  intros Hsub Hm w o w' Hrun. destruct (Hm _ _ _ Hrun) as (l & Hc & Hl).
  exists l. split; [done|]. eapply Forall_impl; [exact Hl|]. intros i Hi. by apply Hsub.
Qed.

Lemma emits_polyglot_invoke names target name args :
  name ∈ names -> emits names (polyglot_invoke target name args).
Proof.
  intros Hin w o w' [_ ->]%polyglot_invoke_frame.
  eexists. split; [done|]. by apply Forall_singleton.
Qed.

Lemma emits_rb_tr_wrap names x : emits names (rb_tr_wrap x).
Proof. apply emits_silent. intros w o w' Hw. by apply rb_tr_wrap_frame in Hw as [? _]. Qed.

Lemma emits_rb_tr_unwrap names v : emits names (rb_tr_unwrap v).
Proof. apply emits_silent. by intros w o w' ->%rb_tr_unwrap_inv. Qed.

Lemma emits_unwrap_all names args : emits names (unwrap_all args).
Proof. apply emits_silent. by intros w o w' ->%unwrap_all_inv. Qed.

Lemma emits_undefined {A} names : emits names (@undefined _ A).
Proof. apply emits_silent. by intros w o w' [= _ <-]. Qed.

Lemma emits_read_argv names argv i : emits names (read_argv argv i).
Proof.
  unfold read_argv. case_decide; [|apply emits_undefined].
  destruct (argv !! Z.to_nat i); [apply emits_ret|apply emits_undefined].
Qed.

Lemma emits_for_loop names i count body :
  (forall j, emits names (body j)) -> emits names (for_loop i count body).
Proof.
  intros Hbody. revert i. induction count as [|count IH]; intros i; simpl.
  - apply emits_ret.
  - apply emits_bind; [apply Hbody|]. intros _. apply IH.
Qed.

Lemma emits_RUBY_CEXT_INVOKE names name args :
  name ∈ names -> emits names (RUBY_CEXT_INVOKE name args).
Proof.
  intros Hin. unfold RUBY_CEXT_INVOKE, RUBY_CEXT_INVOKE_NO_WRAP.
  apply emits_bind; [|intros; apply emits_rb_tr_wrap].
  apply emits_bind; [apply emits_unwrap_all|]. intros. by apply emits_polyglot_invoke.
Qed.

Lemma emits_rb_ary_new4 names n values :
  "rb_ary_new_capa" ∈ names -> "rb_ary_store" ∈ names ->
  emits names (rb_ary_new4 n values).
Proof.
  intros Hcapa Hstore. unfold rb_ary_new4, rb_ary_new_capa, rb_ary_store.
  repeat first
    [ apply emits_ret | apply emits_rb_tr_wrap | apply emits_rb_tr_unwrap
    | apply emits_read_argv | by apply emits_polyglot_invoke
    | apply emits_for_loop; intros | apply emits_bind; [|intros] ].
Qed.

Lemma emits_rb_funcall_with_block recv mid argc argv proc :
  emits ["rb_ary_new_capa"; "rb_ary_store"; "rb_funcall_with_block"]
        (rb_funcall_with_block recv mid argc argv proc).
Proof.
  unfold rb_funcall_with_block, ID2SYM.
  apply emits_bind; [apply emits_rb_tr_wrap|]. intros sym.
  apply emits_bind; [apply emits_rb_ary_new4; set_solver|]. intros ary.
  apply emits_RUBY_CEXT_INVOKE. set_solver.
Qed.

End Emits.

(** ** Block and iteration forwarders *)

Section Blocks.

Context `{Platform}.


(** X17: with a block in the calling frame, on any host, [rb_block_call]
    is the direct call with the explicit proc; the native callback and its
    data play no part, and the generic block-call operation is not
    invoked. *)
Theorem rb_block_call_with_block (object data : VALUE) (name : ID) (args_count : Z)
    (args : list VALUE) (block_call_func : fnptr) (w w1 : World) :
  rb_block_given_p w = (Ret true, w1) ->
  rb_block_call object name args_count args block_call_func data w =
    (proc <- rb_block_proc ;; rb_funcall_with_block object name args_count args proc) w1 /\
  (forall f' data',
      rb_block_call object name args_count args f' data' w =
      rb_block_call object name args_count args block_call_func data w) /\
  (forall o w',
      rb_block_call object name args_count args block_call_func data w = (o, w') ->
      Forall (fun i => inv_name i ≠ "rb_block_call") (new_calls w w')).
Proof.
  intros Hgiven.
  assert (forall f d, rb_block_call object name args_count args f d w =
    (proc <- rb_block_proc ;; rb_funcall_with_block object name args_count args proc) w1)
    as Hdirect.
  { intros f d. unfold rb_block_call. by rewrite (bind_Ret _ _ _ _ _ Hgiven). }
  split_and!.
  - apply Hdirect.
  - intros f' data'. by rewrite !Hdirect.
  - intros o w'. rewrite Hdirect. intros Hrun.
    assert (emits ["rb_block_proc"; "rb_ary_new_capa"; "rb_ary_store"; "rb_funcall_with_block"]
              (proc <- rb_block_proc ;;
               rb_funcall_with_block object name args_count args proc)) as Hemits.
    { apply emits_bind.
      - apply emits_RUBY_CEXT_INVOKE. set_solver.
      - intros proc. eapply emits_weaken; [|apply emits_rb_funcall_with_block].
        intros x. rewrite !elem_of_cons, !elem_of_nil. tauto. }
    destruct (Hemits _ _ _ Hrun) as (l & Hc & Hl).
    apply rb_block_given_p_calls in Hgiven.
    unfold new_calls. rewrite Hc, Hgiven, <-app_assoc, drop_app_length.
    apply Forall_cons. split; [done|].
    eapply Forall_impl; [exact Hl|]. intros i Hi Heq. simpl in Hi. rewrite Heq in Hi.
    rewrite !elem_of_cons, elem_of_nil in Hi. intuition discriminate.
Qed.

End Blocks.

(** ** Blocking regions *)

Section BlockingRegions.

Context `{Platform}.

Lemma callables_elem (f : fnptr) (args : list raw) : Fun f ∈ args -> f ∈ callables args.
Proof.
  intros Hin. unfold callables. apply list_elem_of_omap. by exists (Fun f).
Qed.

Lemma call_gvl_call_function_derefs arg w o w' :
  call_gvl_call_function arg w = (o, w') ->
  exists l, derefs w' = derefs w ++ l /\ Forall (fun c => is_unblock_call c = false) l.
Proof.
  unfold call_gvl_call_function, undefined, bind, ret.
  destruct arg; try (intros [= _ <-]; exists []; by rewrite app_nil_r).
  destruct (call_fnptr _ _ _ w) as [[r| | |] w0] eqn:Hc;
    apply call_fnptr_frame in Hc as (_ & _ & Hd); intros [= _ <-];
    eexists; (split; [exact Hd|]); by apply Forall_singleton.
Qed.

(** A host that is only given the trampoline of the blocking function
    makes no call through an unblock pointer. *)
Lemma run_host_gvl_only p w o w' :
  honest [FnCallGvl] p ->
  run_host p w = (o, w') ->
  exists l, derefs w' = derefs w ++ l /\ Forall (fun c => is_unblock_call c = false) l.
Proof.
  intros Hp. revert w. induction Hp as [o0 s|f arg k Hf _ IH]; intros w; simpl.
  - intros [= _ <-]. exists []. by rewrite app_nil_r.
  - apply list_elem_of_singleton in Hf as ->. simpl. unfold bind.
    destruct (call_gvl_call_function arg w) as [[r| | |] w0] eqn:Hc;
      apply call_gvl_call_function_derefs in Hc as (l1 & Hd1 & Hl1);
      try (intros [= _ <-]; by exists l1).
    intros (l2 & Hd2 & Hl2)%IH. exists (l1 ++ l2).
    rewrite Hd2, Hd1, app_assoc. split; [done|]. by apply Forall_app.
Qed.

(** C4: with the sentinel [RUBY_UBF_IO] as cancellation callback,
    [rb_thread_call_without_gvl] hands the host the managed nil in the
    callback position, not a function pointer, whatever the host; and on a
    host that calls back only through the pointers it is given, no call is
    made through an unblock function pointer. *)
Theorem ubf_io_never_called (function : fnptr) (data1 data2 : Z) (w : World) :
  let w' := (rb_thread_call_without_gvl function data1 RUBY_UBF_IO data2 w).2 in
  new_calls w w' =
    [Invoke RUBY_CEXT "rb_thread_call_without_gvl"
       [Fun FnCallGvl; PtrGvl (mk_gvl_call_data function data1);
        Managed MNil; PtrUnblock (mk_unblock_function_data RUBY_UBF_IO data2)]] /\
  (honest_host -> Forall (fun c => is_unblock_call c = false) (new_derefs w w')).
Proof.
  unfold rb_thread_call_without_gvl.
  rewrite decide_True by done. unfold Qnil.
  destruct (rb_tr_wrap (Managed MNil) w) as [oq w0] eqn:Hq.
  pose proof (rb_tr_wrap_frame _ _ _ _ Hq) as (Hc0 & Hh0 & Hd0).
  assert (exists q, oq = Ret q /\ handles w0 !! q = Some MNil) as (q & -> & Hq').
  { unfold rb_tr_wrap in Hq. pose proof (wrap_lookup MNil (handles w)) as Hl.
    destruct (Handle.wrap MNil (handles w)) as [h t]. injection Hq as <- <-.
    by exists h. }
  set (args := [Fun FnCallGvl; PtrGvl (mk_gvl_call_data function data1);
                Managed MNil; PtrUnblock (mk_unblock_function_data RUBY_UBF_IO data2)]).
  assert ((x <- (q0 <- rb_tr_wrap (Managed MNil) ;; rb_tr_unwrap q0) ;;
           polyglot_invoke RUBY_CEXT "rb_thread_call_without_gvl"
             [Fun FnCallGvl; PtrGvl (mk_gvl_call_data function data1); x;
              PtrUnblock (mk_unblock_function_data RUBY_UBF_IO data2)]) w
          = polyglot_invoke RUBY_CEXT "rb_thread_call_without_gvl" args w0) as ->.
  { unfold bind at 1 2. rewrite Hq. by rewrite (rb_tr_unwrap_valid _ _ _ Hq'). }
  destruct (polyglot_invoke _ _ args w0) as [o w'] eqn:Hrun. simpl.
  split.
  - apply polyglot_invoke_frame in Hrun as [_ Hc].
    unfold new_calls. by rewrite Hc, Hc0, drop_app_length.
  - intros Hhonest. unfold polyglot_invoke in Hrun.
    apply run_host_gvl_only in Hrun as (l & Hd & Hl); [|apply (Hhonest _ _ args)].
    simpl in Hd. unfold new_derefs. by rewrite Hd, Hd0, drop_app_length.
Qed.

End BlockingRegions.

(** ** Handles along a run *)

Section HandlesAlongARun.

Context `{Platform}.

Lemma rb_tr_wrap_spec r w :
  exists h w',
    rb_tr_wrap (Managed r) w = (Ret h, w') /\
    handles w' !! h = Some r /\
    (forall v r', handles w !! v = Some r' -> handles w' !! v = Some r') /\
    host w' = host w /\
    (Handle.wf (handles w) -> Handle.wf (handles w')).
Proof.
  unfold rb_tr_wrap.
  pose proof (wrap_lookup r (handles w)) as Hl.
  pose proof (fun v r' => wrap_keeps r (handles w) v r') as Hk.
  pose proof (wrap_wf r (handles w)) as Hwf.
  destruct (Handle.wrap r (handles w)) as [h t]. simpl in *.
  by exists h, (mkWorld t (host w) (calls w) (derefs w)).
Qed.

Lemma rb_tr_wrap_known r h w :
  Handle.wf (handles w) -> handles w !! h = Some r ->
  rb_tr_wrap (Managed r) w = (Ret h, w).
Proof.
  intros Hwf Hl. unfold rb_tr_wrap. rewrite (wrap_known r _ h Hwf Hl). by destruct w.
Qed.

Lemma unwrap_all_valid args refs w :
  Forall2 (fun v r => handles w !! v = Some r) args refs ->
  unwrap_all args w = (Ret (Managed <$> refs), w).
Proof.
  induction 1 as [|v r args refs Hv _ IH]; simpl; [done|].
  rewrite (bind_Ret _ _ _ _ _ (rb_tr_unwrap_valid _ _ _ Hv)).
  by rewrite (bind_Ret _ _ _ _ _ IH).
Qed.

(** An invocation the host answers without calling back. *)
Lemma polyglot_invoke_done target name args w o s :
  host_invoke target name args (host w) = HDone o s ->
  polyglot_invoke target name args w =
    (o, mkWorld (handles w) s (calls w ++ [Invoke target name args]) (derefs w)).
Proof. unfold polyglot_invoke. simpl. by intros ->. Qed.

End HandlesAlongARun.

(** ** Instance variables on the reference host *)

Section InstanceVariables.

Variable fns : nat -> Z -> Z.

Local Abbreviation P := (RefHost.platform fns).

(** X18: on the reference host, for handles that are valid in a table
    where every reference owns one slot, [rb_ivar_set] followed by
    [rb_ivar_get] under the same name returns the handle that was set. *)
Theorem ivar_set_then_get (object value : VALUE) (o v : ref) (name : ID) (w : @World P) :
  Handle.wf (handles w) ->
  handles w !! object = Some o ->
  handles w !! value = Some v ->
  exists w1 w2,
    rb_ivar_set object name value w = (Ret value, w1) /\
    rb_ivar_get object name w1 = (Ret value, w2).
Proof.
  intros Hwf Ho Hv.
  - destruct (rb_tr_wrap_spec (MSym (id_name name)) w)
      as (sym & w0 & Hsym & Hs0 & Hkeep0 & Hhost0 & Hwf0).
    set (s1 := RefHost.set_ivars (<[(o, id_name name) := v]> (RefHost.ivars (host w0))) (host w0)).
    set (w1 := @mkWorld P (handles w0) s1
                 (calls w0 ++ [Invoke RUBY_CEXT "rb_ivar_set"
                    [Managed o; Managed (MSym (id_name name)); Managed v]]) (derefs w0)).
    assert (rb_ivar_set object name value w = (Ret value, w1)) as Hset.
    { unfold rb_ivar_set, ID2SYM, rb_tr_id2sym. rewrite (bind_Ret _ _ _ _ _ Hsym).
      unfold RUBY_CEXT_INVOKE_NO_WRAP. rewrite bind_assoc.
      assert (Forall2 (fun x r => handles w0 !! x = Some r)
                [object; sym; value] [o; MSym (id_name name); v]) as Hargs.
      { repeat constructor; auto. }
      rewrite (bind_Ret _ _ _ _ _ (unwrap_all_valid _ _ _ Hargs)). simpl fmap.
      unfold bind at 1.
      by erewrite polyglot_invoke_done by reflexivity. }
    destruct (rb_tr_wrap_spec (MSym (id_name name)) w1)
      as (sym' & w2 & Hsym' & Hs2 & Hkeep2 & Hhost2 & Hwf2).
    set (w3 := @mkWorld P (handles w2) (host w2)
                 (calls w2 ++ [Invoke RUBY_CEXT "rb_ivar_get"
                    [Managed o; Managed (MSym (id_name name))]]) (derefs w2)).
    exists w1, w3. split; [done|].
    unfold rb_ivar_get, ID2SYM, rb_tr_id2sym. rewrite (bind_Ret _ _ _ _ _ Hsym').
    unfold RUBY_CEXT_INVOKE, RUBY_CEXT_INVOKE_NO_WRAP.
    assert (handles w2 !! object = Some o) as Ho2 by auto.
    assert (handles w2 !! value = Some v) as Hv2 by auto.
    rewrite bind_assoc.
    assert (Forall2 (fun x r => handles w2 !! x = Some r)
              [object; sym'] [o; MSym (id_name name)]) as Hargs.
    { repeat constructor; auto. }
    rewrite (bind_Ret _ _ _ _ _ (unwrap_all_valid _ _ _ Hargs)). simpl fmap.
    unfold bind at 1.
    assert (RefHost.ivars (host w2) !! (o, id_name name) = Some v) as Hlook.
    { rewrite Hhost2. simpl. apply lookup_insert_eq. }
    erewrite polyglot_invoke_done by reflexivity.
    simpl in Hlook. rewrite Hlook. simpl default.
    apply (rb_tr_wrap_known v value w3); [by apply Hwf2, Hwf0 | done].
Qed.

End InstanceVariables.

(** ** Variadic yield helpers on the reference host *)

Section Packing.

Variable fns : nat -> Z -> Z.

Local Abbreviation P := (RefHost.platform fns).

Lemma invoke_rb_ary_new_capa n s :
  RefHost.invoke RUBY_CEXT "rb_ary_new_capa" [Int n] s =
  if decide (n < 0)
  then RefHost.raise "ArgumentError" "negative array size (or size too big)" s
  else RefHost.finish_new (RefHost.HArray []) s.
Proof. reflexivity. Qed.

Lemma invoke_rb_ary_store a i v s :
  RefHost.invoke RUBY_CEXT "rb_ary_store" [Managed (MObj a); Int i; Managed v] s =
  match RefHost.heap s !! a with
  | Some (RefHost.HArray l) =>
      match RefHost.ary_store l i v with
      | Some l' =>
          RefHost.finish v (RefHost.set_heap (<[a := RefHost.HArray l']> (RefHost.heap s)) s)
      | None => RefHost.raise "IndexError" "index too small for array" s
      end
  | _ => RefHost.raise "TypeError" "no implicit conversion into Array" s
  end.
Proof. reflexivity. Qed.

Lemma ary_store_append (l : list ref) (v : ref) :
  RefHost.ary_store l (Z.of_nat (length l)) v = Some (l ++ [v]).
Proof.
  unfold RefHost.ary_store. cbv zeta.
  repeat case_decide; try lia. by rewrite Z.sub_diag.
Qed.

Lemma rb_ary_new_capa_spec n (w : @World P) :
  0 <= n ->
  exists values w1,
    rb_ary_new_capa n w = (Ret values, w1) /\
    handles w1 !! values = Some (MObj (length (RefHost.heap (host w)))) /\
    (forall v r, handles w !! v = Some r -> handles w1 !! v = Some r) /\
    RefHost.heap (host w1) = RefHost.heap (host w) ++ [RefHost.HArray []].
Proof.
  intros Hn. unfold rb_ary_new_capa.
  set (w0 := @mkWorld P (handles w)
               (RefHost.set_heap (RefHost.heap (host w) ++ [RefHost.HArray []]) (host w))
               (calls w ++ [Invoke RUBY_CEXT "rb_ary_new_capa" [Int n]]) (derefs w)).
  assert (polyglot_invoke RUBY_CEXT "rb_ary_new_capa" [Int n] w =
          (Ret (Managed (MObj (length (RefHost.heap (host w))))), w0)) as Hinv.
  { apply polyglot_invoke_done. simpl host_invoke.
    rewrite invoke_rb_ary_new_capa. by rewrite decide_False by lia. }
  rewrite (bind_Ret _ _ _ _ _ Hinv).
  destruct (rb_tr_wrap_spec (MObj (length (RefHost.heap (host w)))) w0)
    as (values & w1 & Hw & Hl & Hkeep & Hhost & _).
  exists values, w1. split_and!; [done|done|by auto|by rewrite Hhost].
Qed.

Lemma rb_ary_store_spec array value a r l (w : @World P) :
  handles w !! array = Some (MObj a) ->
  handles w !! value = Some r ->
  RefHost.heap (host w) !! a = Some (RefHost.HArray l) ->
  exists w',
    rb_ary_store array (Z.of_nat (length l)) value w = (Ret tt, w') /\
    handles w' = handles w /\
    RefHost.heap (host w') !! a = Some (RefHost.HArray (l ++ [r])).
Proof.
  intros Ha Hv Hl. unfold rb_ary_store.
  rewrite (bind_Ret _ _ _ _ _ (rb_tr_unwrap_valid _ _ _ Ha)).
  rewrite (bind_Ret _ _ _ _ _ (rb_tr_unwrap_valid _ _ _ Hv)).
  eexists. erewrite bind_Ret.
  2:{ apply polyglot_invoke_done. simpl host_invoke.
      rewrite invoke_rb_ary_store, Hl, ary_store_append. reflexivity. }
  split_and!; [reflexivity|reflexivity|]. simpl.
  apply list_lookup_insert_eq. by eapply lookup_lt_Some.
Qed.

(** The packing loop, after [done_v] has been stored and with [todo_v]
    still to go. *)
Lemma store_loop (body : Z -> @M P unit) argv values a :
  (forall i w, body i w = (v <- read_argv argv i ;; rb_ary_store values i v) w) ->
  forall todo_v todo_r, Forall2 (fun _ _ => True) todo_v todo_r ->
  forall done_v done_r (w : @World P),
    argv = done_v ++ todo_v ->
    length done_v = length done_r ->
    Forall2 (fun v r => handles w !! v = Some r) todo_v todo_r ->
    handles w !! values = Some (MObj a) ->
    RefHost.heap (host w) !! a = Some (RefHost.HArray done_r) ->
    exists w',
      for_loop (Z.of_nat (length done_v)) (length todo_v) body w = (Ret tt, w') /\
      handles w' = handles w /\
      RefHost.heap (host w') !! a = Some (RefHost.HArray (done_r ++ todo_r)).
Proof.
  intros Hbody todo_v todo_r Hshape.
  induction Hshape as [|v r todo_v todo_r _ _ IH];
    intros done_v done_r w Hargv Hlen Hvalid Hvalues Hheap.
  - exists w. by rewrite app_nil_r.
  - apply Forall2_cons_1 in Hvalid as [Hv Hrest]. simpl for_loop.
    assert (read_argv argv (Z.of_nat (length done_v)) w = (Ret v, w)) as Hread.
    { unfold read_argv. rewrite decide_True by lia. rewrite Nat2Z.id, Hargv.
      by rewrite list_lookup_middle. }
    destruct (rb_ary_store_spec values v a r done_r w Hvalues Hv Hheap)
      as (w1 & Hstore & Hh1 & Hheap1).
    assert (body (Z.of_nat (length done_v)) w = (Ret tt, w1)) as Hstep.
    { rewrite Hbody, (bind_Ret _ _ _ _ _ Hread). by rewrite Hlen. }
    rewrite (bind_Ret _ _ _ _ _ Hstep).
    destruct (IH (done_v ++ [v]) (done_r ++ [r]) w1) as (w' & Hloop & Hh' & Hheap').
    + by rewrite <-app_assoc.
    + rewrite !length_app. simpl. lia.
    + by rewrite Hh1.
    + by rewrite Hh1.
    + done.
    + exists w'. split_and!.
      * rewrite length_app in Hloop. simpl in Hloop.
        by replace (Z.of_nat (length done_v) + 1) with (Z.of_nat (length done_v + 1)) by lia.
      * congruence.
      * by rewrite <-app_assoc in Hheap'.
Qed.

(** C5: on the reference host, for [n >= 0] arguments that are valid
    handles, [rb_yield_values] and [rb_yield_values2] hand
    [rb_yield_splat] an array that holds what the arguments denote, in
    their order, the i-th argument at index i, and nothing else. *)
Theorem yield_values_pack_in_order (n : Z) (argv : list VALUE) (refs : list ref)
    (w : @World P) :
  0 <= n ->
  length argv = Z.to_nat n ->
  Forall2 (fun v r => handles w !! v = Some r) argv refs ->
  exists (values : VALUE) (r : ref) (w' : @World P),
    handles w' !! values = Some r /\
    RefHost.array_at (host w') r = Some refs /\
    rb_yield_values2 n argv w = rb_yield_splat values w' /\
    rb_yield_values n argv w = rb_yield_splat values w'.
Proof.
  intros Hn Hlen Hvalid.
  destruct (rb_ary_new_capa_spec n w Hn) as (values & w1 & Hnew & Hvalues & Hkeep & Hheap).
  set (a := length (RefHost.heap (host w))) in *.
  assert (RefHost.heap (host w1) !! a = Some (RefHost.HArray [])) as Hempty.
  { rewrite Hheap. by apply list_lookup_middle. }
  assert (Forall2 (fun v r => handles w1 !! v = Some r) argv refs) as Hvalid1.
  { eapply Forall2_impl; [exact Hvalid|]. auto. }
  destruct (store_loop (fun i => v <- read_argv argv i ;; rb_ary_store values i v)
              argv values a ltac:(done) argv refs
              ltac:(eapply Forall2_impl; [exact Hvalid|done])
              [] [] w1 eq_refl eq_refl Hvalid1 Hvalues Hempty) as (w' & Hrun2 & Hh & Hfin).
  simpl in Hrun2. rewrite Hlen in Hrun2.
  assert (for_loop 0 (Z.to_nat n)
            (fun i => v <- polyglot_get_arg argv (1 + i) ;; rb_ary_store values i v) w1 =
          (Ret tt, w')) as Hrun.
  { rewrite <-Hrun2. apply for_loop_ext. intros i w0.
    unfold polyglot_get_arg. by replace (1 + i - 1) with i by lia. }
  exists values, (MObj a), w'. split_and!.
  - by rewrite Hh.
  - simpl. by rewrite Hfin.
  - unfold rb_yield_values2.
    by rewrite (bind_Ret _ _ _ _ _ Hnew), (bind_Ret _ _ _ _ _ Hrun2).
  - unfold rb_yield_values.
    by rewrite (bind_Ret _ _ _ _ _ Hnew), (bind_Ret _ _ _ _ _ Hrun).
Qed.

End Packing.

(** ** Formatted strings on the reference host *)

Section Formatting.

Variable fns : nat -> Z -> Z.

Local Abbreviation P := (RefHost.platform fns).

Lemma c_str_idemp s : c_str (c_str s) = c_str s.
Proof.
  induction s as [|c s IH]; simpl; [done|].
  destruct (decide (c = NUL)) as [|Hc]; simpl; [done|].
  rewrite decide_False by done. by rewrite IH.
Qed.

Lemma format_loop_other c rest args :
  c ≠ "%"%char -> format_loop (String c rest) args = String c <$> format_loop rest args.
Proof.
  intros Hc. destruct c as [[] [] [] [] [] [] [] []]; try reflexivity. by destruct Hc.
Qed.

Lemma format_loop_plain s args :
  "%"%char ∉ list_ascii_of_string s -> format_loop s args = Some s.
Proof.
  induction s as [|c s IH]; [done|].
  change (list_ascii_of_string (String c s)) with (c :: list_ascii_of_string s).
  rewrite not_elem_of_cons. intros [Hc Hs].
  rewrite format_loop_other by done. by rewrite IH.
Qed.

Lemma rb_enc_str_new_cstr_spec ptr enc (w : @World P) :
  builds_string (rb_enc_str_new_cstr ptr enc w) (c_str ptr) enc.
Proof.
  unfold rb_enc_str_new_cstr.
  erewrite bind_Ret by (by apply polyglot_invoke_done).
  match goal with |- builds_string (rb_tr_wrap (Managed ?r) ?w0) _ _ =>
    destruct (rb_tr_wrap_spec r w0) as (v & w1 & Hw & Hl & _ & Hhost & _) end.
  rewrite Hw. exists v, (MObj (length (RefHost.heap (host w)))).
  split_and!; [done|done|]. simpl. rewrite Hhost. simpl.
  by rewrite list_lookup_middle.
Qed.

(** C7, as the code has it: with no format arguments, a format that
    contains no [%] comes back unchanged, tagged with the encoding that was
    asked for, and with the binary encoding from the entry points that
    take none. *)
Theorem sprintf_plain_format (enc : rb_encoding) (format : string) (w : @World P) :
  plain_format format ->
  builds_string (rb_enc_sprintf enc format [] w) (c_str format) enc /\
  builds_string (rb_sprintf format [] w) (c_str format) ASCII_8BIT /\
  builds_string (rb_vsprintf format [] w) (c_str format) ASCII_8BIT.
Proof.
  intros Hplain.
  assert (forall e, builds_string (rb_enc_vsprintf e format [] w) (c_str format) e) as Hv.
  { intros e. unfold rb_enc_vsprintf, vasprintf.
    rewrite (format_loop_plain _ _ Hplain).
    rewrite <-(c_str_idemp format) at 2. apply rb_enc_str_new_cstr_spec. }
  split_and!; apply Hv.
Qed.

End Formatting.

(** ** The reference host calls back only through what it is given *)

Section ReferenceHostHonest.

Variable fns : nat -> Z -> Z.

Local Abbreviation P := (RefHost.platform fns).

Lemma honest_finish allowed r s : @honest P allowed (RefHost.finish r s).
Proof. constructor. Qed.

Lemma honest_finish_new allowed o s : @honest P allowed (RefHost.finish_new o s).
Proof. constructor. Qed.

Lemma honest_raise allowed c m s : @honest P allowed (RefHost.raise c m s).
Proof. constructor. Qed.

Lemma honest_done_with allowed o s : @honest P allowed (RefHost.done_with o s).
Proof. destruct o; constructor. Qed.

Lemma honest_yield allowed args s : @honest P allowed (RefHost.yield args s).
Proof.
  unfold RefHost.yield. destruct (RefHost.proc_at s (RefHost.block s));
    auto using honest_done_with, honest_raise.
Qed.

Lemma honest_dispatch allowed recv name args blk s :
  @honest P allowed (RefHost.dispatch recv name args blk s).
Proof.
  unfold RefHost.dispatch.
  repeat case_match;
    auto using honest_done_with, honest_raise, honest_finish, honest_finish_new;
    constructor.
Qed.

Lemma ref_host_honest : @honest_host P.
Proof.
  intros target name args s. simpl. unfold RefHost.invoke.
  destruct target as [r| | | | | | |]; try apply honest_raise.
  destruct (decide (r = MCext)) as [->|Hr].
  2:{ destruct r; try done;
        (destruct (RefHost.managed_all args);
           [apply honest_dispatch | apply honest_raise]). }
  unfold RefHost.cext_invoke, RefHost.bad_args.
  repeat match goal with
         | |- honest _ (if String.eqb ?a ?b then _ else _) => destruct (String.eqb a b)
         end;
    try apply honest_raise; try apply honest_finish;
    repeat match goal with
           | |- honest _ (match ?x with _ => _ end) => destruct x
           end;
    auto using honest_done_with, honest_raise, honest_finish, honest_finish_new,
               honest_yield, honest_dispatch;
    repeat first
      [ apply (@honest_done P)
      | apply (@honest_call P); [apply callables_elem; set_solver | intros ?] ].
Qed.

End ReferenceHostHonest.

(** ** Runs on the reference host *)

Lemma rb_check_arity_returns_argc_witness :
  (rb_check_arity 2 1 3 Sample.w_no_block).1 = Ret 2.
Proof.
  rewrite (rb_check_arity_returns_argc 2 1 3 Sample.w_no_block (Managed MNil)
             (polyglot_invoke RUBY_CEXT "rb_check_arity" [Int 2; Int 1; Int 3]
                Sample.w_no_block).2).
  - reflexivity.
  - reflexivity.
Defined.

Lemma ivar_set_returns_value_witness :
  (rb_ivar_set 0%nat (rb_intern "@a") 1%nat Sample.w_no_block).1 = Ret 1%nat /\
  (rb_iv_set 0%nat "@a" 1%nat Sample.w_no_block).1 = Ret 1%nat.
Proof.
  destruct (ivar_set_returns_value 0%nat 1%nat Sample.w_no_block) as [Hivar Hiv].
  split.
  - set (w1 := (ID2SYM (rb_intern "@a") Sample.w_no_block).2).
    set (w2 := (RUBY_CEXT_INVOKE_NO_WRAP "rb_ivar_set" [0; 2; 1]%nat w1).2).
    rewrite (Hivar (rb_intern "@a") 2%nat w1 (Managed (MInt 7)) w2).
    + reflexivity.
    + reflexivity.
    + reflexivity.
  - set (w1 := (rb_str_new_cstr "@a" Sample.w_no_block).2).
    set (w2 := (rb_to_id 2%nat w1).2).
    set (w3 := (ID2SYM (rb_intern "@a") w2).2).
    set (w4 := (RUBY_CEXT_INVOKE_NO_WRAP "rb_ivar_set" [0; 3; 1]%nat w3).2).
    rewrite (Hiv "@a" 2%nat w1 (rb_intern "@a") w2 3%nat w3 (Managed (MInt 7)) w4).
    + reflexivity.
    + reflexivity.
    + reflexivity.
    + reflexivity.
    + reflexivity.
Defined.

Lemma raisers_never_return_witness :
  rb_iter_break_value 1%nat Sample.w_no_block =
    (Jump (JBreak (MInt 7)),
     (RUBY_CEXT_INVOKE_NO_WRAP "rb_iter_break_value" [1%nat] Sample.w_no_block).2) /\
  returns (rb_error_arity 5 1 3 Sample.w_no_block).1 = false /\
  (rb_error_arity 5 1 3 Sample.w_no_block).1 = Jump (JRaise (MObj 2)).
Proof.
  destruct (@raisers_never_return Sample.P)
    as (Harity & Hbreak & Hjump & Hfatal & Hpass & Hback & Hchain & Hrest).
  split_and!; [|apply Harity|].
  - apply Hjump. reflexivity.
  - set (w1 := (rb_eArgError Sample.w_no_block).2).
    set (w2 := (polyglot_invoke RUBY_CEXT "rb_arity_error_string" [Int 5; Int 1; Int 3] w1).2).
    set (w3 := (rb_tr_wrap (Managed (MObj 1)) w2).2).
    set (w4 := (rb_exc_new3 2%nat 3%nat w3).2).
    set (w5 := (RUBY_CEXT_INVOKE_NO_WRAP "rb_exc_raise" [4%nat] w4).2).
    destruct (Hchain 5 1 3 Sample.w_no_block 2%nat w1 (Managed (MObj 1)) w2 3%nat w3 4%nat w4)
      as (Hrun & Hexit & Hescalate).
    + reflexivity.
    + reflexivity.
    + reflexivity.
    + reflexivity.
    + rewrite (Hexit (JRaise (MObj 2)) w5); reflexivity.
Defined.

(** On the reference host the two raisers leave by a non-local exit: an
    [ArgumentError] for a bad arity, a break carrying the value. *)
Example raisers_jump :
  (rb_error_arity 5 1 3 Sample.w_no_block).1 = Jump (JRaise (MObj 2)) /\
  RefHost.heap (host (rb_error_arity 5 1 3 Sample.w_no_block).2) !! 2%nat =
    Some (RefHost.HException "ArgumentError"
            "wrong number of arguments (given 5, expected 1..3)") /\
  (rb_iter_break_value 1%nat Sample.w_no_block).1 = Jump (JBreak (MInt 7)).
Proof. vm_compute. done. Qed.



Lemma rb_block_call_with_block_witness :
  result_of (rb_block_call 0%nat (rb_intern "each") 0 [] (FnUser 1) 1%nat
               Sample.w_with_block) =
  result_of (rb_block_call 0%nat (rb_intern "each") 0 [] NULL 0%nat
               Sample.w_with_block).
Proof.
  set (w1 := (rb_block_given_p Sample.w_with_block).2).
  assert (rb_block_given_p Sample.w_with_block = (Ret true, w1)) as Hgiven.
  { reflexivity. }
  destruct (rb_block_call_with_block 0%nat 1%nat (rb_intern "each") 0 []
              (FnUser 1) Sample.w_with_block w1 Hgiven) as (_ & Hsame & _).
  by rewrite (Hsame NULL 0%nat).
Defined.

Lemma ubf_io_never_called_witness :
  Forall (fun c => is_unblock_call c = false)
    (new_derefs Sample.w_interrupted
       (rb_thread_call_without_gvl (FnUser 1) 5 RUBY_UBF_IO 6 Sample.w_interrupted).2).
Proof.
  apply (ubf_io_never_called (FnUser 1) 5 6 Sample.w_interrupted), ref_host_honest.
Defined.

(** When the host cancels a blocking region, a native unblock function is
    called through the trampoline, and the sentinel is not. *)
Example unblock_function_called :
  derefs (rb_thread_call_without_gvl (FnUser 1) 5 (FnUser 2) 6 Sample.w_interrupted).2 =
    [UnblockCall (FnUser 2) 6; GvlCall (FnUser 1) 5] /\
  derefs (rb_thread_call_without_gvl (FnUser 1) 5 RUBY_UBF_IO 6 Sample.w_interrupted).2 =
    [GvlCall (FnUser 1) 5].
Proof. vm_compute. done. Qed.

Lemma yield_values_pack_in_order_witness :
  exists (values : VALUE) (r : ref) (w' : @World Sample.P),
    handles w' !! values = Some r /\
    RefHost.array_at (host w') r = Some [MInt 7; MInt 8; MInt 9] /\
    rb_yield_values2 3 [1; 2; 3]%nat Sample.w_with_block = rb_yield_splat values w' /\
    rb_yield_values 3 [1; 2; 3]%nat Sample.w_with_block = rb_yield_splat values w'.
Proof.
  apply (yield_values_pack_in_order Sample.fns 3 [1; 2; 3]%nat [MInt 7; MInt 8; MInt 9]
           Sample.w_with_block).
  - lia.
  - reflexivity.
  - repeat constructor.
Defined.

(** The block of the sample frame returns its first argument. *)
Example yield_values_run :
  result_of (rb_yield_values 3 [1; 2; 3]%nat Sample.w_with_block) = Ret (Some (MInt 7)) /\
  result_of (rb_yield_values2 0 [] Sample.w_with_block) = Ret (Some MNil).
Proof. vm_compute. done. Qed.

Lemma sprintf_plain_format_witness :
  builds_string (rb_enc_sprintf UTF_8 "hello" [] Sample.w_no_block) "hello" UTF_8 /\
  builds_string (rb_sprintf "hello" [] Sample.w_no_block) "hello" ASCII_8BIT /\
  builds_string (rb_vsprintf "hello" [] Sample.w_no_block) "hello" ASCII_8BIT.
Proof.
  apply (sprintf_plain_format Sample.fns UTF_8 "hello" Sample.w_no_block).
  unfold plain_format. apply (bool_decide_unpack _). vm_compute. reflexivity.
Defined.

(** C7 fails for a format with [%%]: the two bytes come back as one. *)
Lemma sprintf_percent_collapses :
  ~ builds_string (rb_sprintf "100%%" [] Sample.w_no_block) "100%%" ASCII_8BIT /\
  builds_string (rb_sprintf "100%%" [] Sample.w_no_block) "100%" ASCII_8BIT.
Proof.
  split.
  - intros (v & r & Hv & Hr & Hs).
    vm_compute in Hv. injection Hv as <-.
    vm_compute in Hr. injection Hr as <-.
    vm_compute in Hs. discriminate.
  - exists 2%nat, (MObj 1). vm_compute. done.
Qed.

Lemma ivar_set_then_get_witness :
  exists w1 w2 : @World Sample.P,
    rb_ivar_set 0%nat (rb_intern "@a") 1%nat Sample.w_no_block = (Ret 1%nat, w1) /\
    rb_ivar_get 0%nat (rb_intern "@a") w1 = (Ret 1%nat, w2).
Proof.
  apply (ivar_set_then_get Sample.fns 0%nat 1%nat (MObj 0) (MInt 7)
           (rb_intern "@a") Sample.w_no_block).
  - unfold Handle.wf. apply (bool_decide_unpack _). vm_compute. reflexivity.
  - reflexivity.
  - reflexivity.
Defined.

(** ** Handles across the native API *)

Section KeepsHandles.

Context `{Platform}.

Lemma keeps_silent {A} (m : M A) :
  (forall w o w', m w = (o, w') -> handles w' = handles w) -> keeps_handles m.
Proof. intros Hm w o w' Hrun. rewrite (Hm _ _ _ Hrun). done. Qed.

Lemma keeps_ret {A} (a : A) : keeps_handles (ret a).
Proof. apply keeps_silent. by intros w o w' [= _ <-]. Qed.

Lemma keeps_undefined {A} : keeps_handles (@undefined _ A).
Proof. apply keeps_silent. by intros w o w' [= _ <-]. Qed.

Lemma keeps_rb_tr_error {A} msg : keeps_handles (@rb_tr_error _ A msg).
Proof. apply keeps_silent. by intros w o w' [= _ <-]. Qed.

Lemma keeps_bind {A B} (m : M A) (k : A -> M B) :
  keeps_handles m -> (forall a, keeps_handles (k a)) -> keeps_handles (x <- m ;; k x).
Proof.
  intros Hm Hk w o w'. unfold bind.
  destruct (m w) as [[a| | |] w0] eqn:Hrun; try (intros [= <- <-]; by eapply Hm).
  intros Hrun'. destruct (Hm _ _ _ Hrun) as [Hv Hwf].
  destruct (Hk a _ _ _ Hrun') as [Hv' Hwf']. split; auto.
Qed.

Lemma keeps_rb_tr_wrap x : keeps_handles (rb_tr_wrap x).
Proof.
  intros w o w'. destruct x as [r| | | | | | |]; try (intros [= _ <-]; done).
  destruct (rb_tr_wrap_spec r w) as (h & w1 & Hw & _ & Hkeep & _ & Hwf).
  rewrite Hw. intros [= _ <-]. done.
Qed.

Lemma keeps_rb_tr_unwrap v : keeps_handles (rb_tr_unwrap v).
Proof. apply keeps_silent. by intros w o w' ->%rb_tr_unwrap_inv. Qed.

Lemma keeps_unwrap_all args : keeps_handles (unwrap_all args).
Proof. apply keeps_silent. by intros w o w' ->%unwrap_all_inv. Qed.

Lemma keeps_polyglot_invoke target name args :
  keeps_handles (polyglot_invoke target name args).
Proof. apply keeps_silent. by intros w o w' [? _]%polyglot_invoke_frame. Qed.

Lemma keeps_read_argv argv i : keeps_handles (read_argv argv i).
Proof.
  unfold read_argv. case_decide; [|apply keeps_undefined].
  destruct (argv !! Z.to_nat i); [apply keeps_ret|apply keeps_undefined].
Qed.

Lemma keeps_for_loop i count body :
  (forall j, keeps_handles (body j)) -> keeps_handles (for_loop i count body).
Proof.
  intros Hbody. revert i. induction count as [|count IH]; intros i; simpl.
  - apply keeps_ret.
  - apply keeps_bind; [apply Hbody|]. intros _. apply IH.
Qed.

Ltac keeps :=
  repeat first
    [ apply keeps_rb_tr_wrap | apply keeps_rb_tr_unwrap | apply keeps_unwrap_all
    | apply keeps_polyglot_invoke | apply keeps_read_argv
    | apply keeps_rb_tr_error | apply keeps_undefined | apply keeps_ret
    | apply keeps_for_loop; intros ?
    | apply keeps_bind; [|intros ?]
    | match goal with
      | |- keeps_handles (if ?b then _ else _) => destruct b
      | |- keeps_handles (match ?x with _ => _ end) => destruct x
      end ].

Lemma rb_block_given_p_keeps : keeps_handles rb_block_given_p.
Proof.
  unfold rb_block_given_p, rb_block_proc, NIL_P, RUBY_CEXT_INVOKE, RUBY_CEXT_INVOKE_NO_WRAP.
  keeps.
Qed.

End KeepsHandles.

(** ** What crosses the bridge *)

Section Marshalling.

Context `{Platform}.

Lemma new_calls_app (w w' : World) l : calls w' = calls w ++ l -> new_calls w w' = l.
Proof. intros Hc. unfold new_calls. by rewrite Hc, drop_app_length. Qed.

Lemma calls_polyglot_invoke target name args w :
  calls (polyglot_invoke target name args w).2 = calls w ++ [Invoke target name args].
Proof.
  destruct (polyglot_invoke target name args w) as [o w'] eqn:Hrun.
  by apply polyglot_invoke_frame in Hrun as [_ ?].
Qed.

Lemma handles_polyglot_invoke target name args w :
  handles (polyglot_invoke target name args w).2 = handles w.
Proof.
  destruct (polyglot_invoke target name args w) as [o w'] eqn:Hrun.
  by apply polyglot_invoke_frame in Hrun as [? _].
Qed.

Lemma calls_bind_wrap (m : M raw) w :
  calls ((x <- m ;; rb_tr_wrap x) w).2 = calls (m w).2.
Proof.
  unfold bind. destruct (m w) as [[x| | |] w0]; try done. simpl.
  destruct (rb_tr_wrap x w0) as [o w'] eqn:Hw. by apply rb_tr_wrap_frame in Hw as [? _].
Qed.

Lemma calls_bind_ret {A B} (m : M A) (b : B) w :
  calls ((_ <- m ;; ret b) w).2 = calls (m w).2.
Proof. unfold bind, ret. by destruct (m w) as [[x| | |] w0]. Qed.

Lemma calls_bind_silent {A B} (m : M A) (k : A -> M B) w :
  (forall a w0 o w', k a w0 = (o, w') -> calls w' = calls w0) ->
  calls ((x <- m ;; k x) w).2 = calls (m w).2.
Proof.
  intros Hk. unfold bind. destruct (m w) as [[x| | |] w0]; try done. simpl.
  destruct (k x w0) as [o w'] eqn:Hrun. by apply Hk in Hrun.
Qed.

Lemma RUBY_CEXT_INVOKE_NO_WRAP_valid name args refs w :
  Forall2 (fun v r => handles w !! v = Some r) args refs ->
  RUBY_CEXT_INVOKE_NO_WRAP name args w = polyglot_invoke RUBY_CEXT name (Managed <$> refs) w.
Proof.
  intros Hargs. unfold RUBY_CEXT_INVOKE_NO_WRAP.
  by rewrite (bind_Ret _ _ _ _ _ (unwrap_all_valid _ _ _ Hargs)).
Qed.

Lemma calls_RUBY_CEXT_INVOKE_NO_WRAP name args refs w :
  Forall2 (fun v r => handles w !! v = Some r) args refs ->
  calls (RUBY_CEXT_INVOKE_NO_WRAP name args w).2 =
    calls w ++ [Invoke RUBY_CEXT name (Managed <$> refs)].
Proof.
  intros Hargs. rewrite (RUBY_CEXT_INVOKE_NO_WRAP_valid _ _ _ _ Hargs).
  apply calls_polyglot_invoke.
Qed.

Lemma calls_RUBY_CEXT_INVOKE name args refs w :
  Forall2 (fun v r => handles w !! v = Some r) args refs ->
  calls (RUBY_CEXT_INVOKE name args w).2 =
    calls w ++ [Invoke RUBY_CEXT name (Managed <$> refs)].
Proof.
  intros Hargs. unfold RUBY_CEXT_INVOKE. rewrite calls_bind_wrap.
  by apply calls_RUBY_CEXT_INVOKE_NO_WRAP.
Qed.

(** Interning a name: the symbol gets a handle, nothing crosses the
    bridge. *)
Lemma ID2SYM_spec id w :
  exists sym w1,
    ID2SYM id w = (Ret sym, w1) /\
    handles w1 !! sym = Some (MSym (id_name id)) /\
    (forall v r, handles w !! v = Some r -> handles w1 !! v = Some r) /\
    calls w1 = calls w /\ host w1 = host w /\ derefs w1 = derefs w /\
    (Handle.wf (handles w) -> Handle.wf (handles w1)).
Proof.
  unfold ID2SYM, rb_tr_id2sym.
  destruct (rb_tr_wrap_spec (MSym (id_name id)) w) as (sym & w1 & Hw & Hl & Hk & Hh & Hwf).
  destruct (rb_tr_wrap_frame _ _ _ _ Hw) as (Hc & _ & Hd).
  exists sym, w1. done.
Qed.

Lemma Qnil_spec w :
  exists q w1,
    Qnil w = (Ret q, w1) /\
    handles w1 !! q = Some MNil /\
    (forall v r, handles w !! v = Some r -> handles w1 !! v = Some r) /\
    calls w1 = calls w /\ host w1 = host w /\ derefs w1 = derefs w /\
    (Handle.wf (handles w) -> Handle.wf (handles w1)).
Proof.
  unfold Qnil.
  destruct (rb_tr_wrap_spec MNil w) as (q & w1 & Hw & Hl & Hk & Hh & Hwf).
  destruct (rb_tr_wrap_frame _ _ _ _ Hw) as (Hc & _ & Hd).
  exists q, w1. done.
Qed.

(** X2: the accessors of ivar.c that take an [ID] address the host with
    the same key.  For valid handles and on any host, [rb_ivar_set],
    [rb_ivar_get] and [rb_ivar_defined] each issue exactly one invocation,
    with the object the handle denotes, the symbol of the [ID] and, for
    the setter, the value the handle denotes, in this order. *)
Theorem ivar_accessors_same_key (object value : VALUE) (o v : ref) (name : ID) (w : World) :
  handles w !! object = Some o ->
  handles w !! value = Some v ->
  new_calls w (rb_ivar_set object name value w).2 =
    [Invoke RUBY_CEXT "rb_ivar_set" [Managed o; Managed (MSym (id_name name)); Managed v]] /\
  new_calls w (rb_ivar_get object name w).2 =
    [Invoke RUBY_CEXT "rb_ivar_get" [Managed o; Managed (MSym (id_name name))]] /\
  new_calls w (rb_ivar_defined object name w).2 =
    [Invoke RUBY_CEXT "rb_ivar_defined" [Managed o; Managed (MSym (id_name name))]].
Proof.
  intros Ho Hv.
  destruct (ID2SYM_spec name w) as (sym & w1 & Hsym & Hs & Hkeep & Hc & _).
  assert (Forall2 (fun x r => handles w1 !! x = Some r)
            [object; sym; value] [o; MSym (id_name name); v]) as Hset.
  { repeat constructor; auto. }
  assert (Forall2 (fun x r => handles w1 !! x = Some r)
            [object; sym] [o; MSym (id_name name)]) as Hget.
  { repeat constructor; auto. }
  split_and!; apply new_calls_app.
  - unfold rb_ivar_set. rewrite (bind_Ret _ _ _ _ _ Hsym), calls_bind_ret.
    by rewrite (calls_RUBY_CEXT_INVOKE_NO_WRAP _ _ _ _ Hset), Hc.
  - unfold rb_ivar_get. rewrite (bind_Ret _ _ _ _ _ Hsym).
    by rewrite (calls_RUBY_CEXT_INVOKE _ _ _ _ Hget), Hc.
  - unfold rb_ivar_defined. rewrite (bind_Ret _ _ _ _ _ Hsym).
    by rewrite (calls_RUBY_CEXT_INVOKE _ _ _ _ Hget), Hc.
Qed.

(** X3: [rb_attr_get] is the lookup with default nil.  For a valid object
    handle and on any host it issues exactly one invocation of
    [rb_ivar_lookup], with the object, the symbol of the [ID] and the
    managed nil; [rb_ivar_lookup] itself hands over the bytes of the C
    string, not a symbol, and the default the handle denotes. *)
Theorem attr_get_is_lookup_with_nil (object default_value : VALUE) (o d : ref)
    (name : ID) (cname : string) (w : World) :
  handles w !! object = Some o ->
  handles w !! default_value = Some d ->
  new_calls w (rb_attr_get object name w).2 =
    [Invoke RUBY_CEXT "rb_ivar_lookup"
       [Managed o; Managed (MSym (id_name name)); Managed MNil]] /\
  new_calls w (rb_ivar_lookup object cname default_value w).2 =
    [Invoke RUBY_CEXT "rb_ivar_lookup" [Managed o; CStr (c_str cname); Managed d]].
Proof.
  intros Ho Hd. split; apply new_calls_app.
  - destruct (ID2SYM_spec name w) as (sym & w1 & Hsym & Hs & Hkeep & Hc & _).
    destruct (Qnil_spec w1) as (q & w2 & Hq & Hn & Hkeep' & Hc' & _).
    assert (Forall2 (fun x r => handles w2 !! x = Some r)
              [object; sym; q] [o; MSym (id_name name); MNil]) as Hargs.
    { repeat constructor; auto. }
    unfold rb_attr_get. rewrite (bind_Ret _ _ _ _ _ Hsym), (bind_Ret _ _ _ _ _ Hq).
    by rewrite (calls_RUBY_CEXT_INVOKE _ _ _ _ Hargs), Hc', Hc.
  - unfold rb_ivar_lookup.
    rewrite (bind_Ret _ _ _ _ _ (rb_tr_unwrap_valid _ _ _ Ho)).
    rewrite (bind_Ret _ _ _ _ _ (rb_tr_unwrap_valid _ _ _ Hd)).
    rewrite calls_bind_wrap. apply calls_polyglot_invoke.
Qed.

(** X4: the forwarders that take native function pointers hand them to
    the host as they are, in the order of the source.  For valid handles
    and on any host, [rb_iterate] and [rb_exec_recursive] each issue
    exactly one invocation, and so does [rb_thread_call_with_gvl], which
    passes the function itself and no trampoline and leaves the handle
    table alone. *)
Theorem function_pointers_cross_unwrapped (function block : fnptr) (arg1 arg2 : VALUE)
    (r1 r2 : ref) (data1 : Z) (w : World) :
  handles w !! arg1 = Some r1 ->
  handles w !! arg2 = Some r2 ->
  new_calls w (rb_iterate function arg1 block arg2 w).2 =
    [Invoke RUBY_CEXT "rb_iterate" [Fun function; Managed r1; Fun block; Managed r2]] /\
  new_calls w (rb_exec_recursive function arg1 arg2 w).2 =
    [Invoke RUBY_CEXT "rb_exec_recursive" [Fun function; Managed r1; Managed r2]] /\
  new_calls w (rb_thread_call_with_gvl function data1 w).2 =
    [Invoke RUBY_CEXT "rb_thread_call_with_gvl" [Fun function; Ptr data1]] /\
  handles (rb_thread_call_with_gvl function data1 w).2 = handles w.
Proof.
  intros H1 H2. split_and!; try apply new_calls_app.
  - unfold rb_iterate.
    rewrite (bind_Ret _ _ _ _ _ (rb_tr_unwrap_valid _ _ _ H1)).
    rewrite (bind_Ret _ _ _ _ _ (rb_tr_unwrap_valid _ _ _ H2)).
    rewrite calls_bind_wrap. apply calls_polyglot_invoke.
  - unfold rb_exec_recursive.
    rewrite (bind_Ret _ _ _ _ _ (rb_tr_unwrap_valid _ _ _ H1)).
    rewrite (bind_Ret _ _ _ _ _ (rb_tr_unwrap_valid _ _ _ H2)).
    rewrite calls_bind_wrap. apply calls_polyglot_invoke.
  - apply calls_polyglot_invoke.
  - apply handles_polyglot_invoke.
Qed.

(** X5: [rb_obj_respond_to] and [rb_method_boundp] resolve the [ID] to
    its symbol without a handle.  For a valid receiver and on any host
    each issues exactly one invocation, with the receiver, the symbol and
    the flag, and the handle table after the call is the table before
    it; [rb_obj_respond_to] returns 1 or 0 as the host answers true or
    false. *)
Theorem respond_to_without_handles (object : VALUE) (o : ref) (id : ID) (flag : Z)
    (w : World) :
  handles w !! object = Some o ->
  new_calls w (rb_obj_respond_to object id flag w).2 =
    [Invoke RUBY_CEXT "rb_obj_respond_to" [Managed o; Managed (MSym (id_name id)); Int flag]] /\
  new_calls w (rb_method_boundp object id flag w).2 =
    [Invoke RUBY_CEXT "rb_method_boundp" [Managed o; Managed (MSym (id_name id)); Int flag]] /\
  handles (rb_obj_respond_to object id flag w).2 = handles w /\
  handles (rb_method_boundp object id flag w).2 = handles w /\
  (forall b w',
      polyglot_invoke RUBY_CEXT "rb_obj_respond_to"
        [Managed o; Managed (MSym (id_name id)); Int flag] w =
        (Ret (Managed (if b : bool then MTrue else MFalse)), w') ->
      rb_obj_respond_to object id flag w = (Ret (if b then 1 else 0), w')).
Proof.
  intros Ho.
  assert (forall (k : raw -> M Z) name,
    (forall x w0 o' w', k x w0 = (o', w') -> w' = w0) ->
    calls ((r <- polyglot_invoke RUBY_CEXT name
                   [Managed o; rb_tr_id2sym id; Int flag] ;; k r) w).2 =
      calls w ++ [Invoke RUBY_CEXT name [Managed o; Managed (MSym (id_name id)); Int flag]] /\
    handles ((r <- polyglot_invoke RUBY_CEXT name
                   [Managed o; rb_tr_id2sym id; Int flag] ;; k r) w).2 = handles w) as Hrun.
  { intros k name Hk. unfold bind.
    destruct (polyglot_invoke _ _ _ w) as [[x| | |] w0] eqn:Hinv;
      apply polyglot_invoke_frame in Hinv as [Hh Hc]; try done.
    destruct (k x w0) as [o' w'] eqn:Hkx. apply Hk in Hkx as ->. done. }
  assert (forall x w0 o' w', polyglot_as_boolean x w0 = (o', w') -> w' = w0) as Hbool.
  { intros x w0 o' w'. unfold polyglot_as_boolean, ret, undefined.
    repeat case_match; by intros [= _ <-]. }
  assert (forall x w0 o' w', polyglot_as_i32 x w0 = (o', w') -> w' = w0) as Hint.
  { intros x w0 o' w'. unfold polyglot_as_i32, ret, undefined.
    repeat case_match; by intros [= _ <-]. }
  unfold rb_obj_respond_to, rb_method_boundp.
  rewrite !(bind_Ret _ _ _ _ _ (rb_tr_unwrap_valid _ _ _ Ho)).
  destruct (Hrun polyglot_as_boolean "rb_obj_respond_to" Hbool) as [Hc1 Hh1].
  destruct (Hrun polyglot_as_i32 "rb_method_boundp" Hint) as [Hc2 Hh2].
  split_and!; [by apply new_calls_app|by apply new_calls_app|done|done|].
  intros b w' Hinv. unfold rb_tr_id2sym. rewrite (bind_Ret _ _ _ _ _ Hinv). by destruct b.
Qed.

End Marshalling.

(** ** Yielding, breaking and needing a block *)

Section BlockHelpers.

Context `{Platform}.

Lemma emits_RUBY_CEXT_INVOKE_NO_WRAP names name args :
  name ∈ names -> emits names (RUBY_CEXT_INVOKE_NO_WRAP name args).
Proof.
  intros Hin. unfold RUBY_CEXT_INVOKE_NO_WRAP.
  apply emits_bind; [apply emits_unwrap_all|]. intros. by apply emits_polyglot_invoke.
Qed.

Lemma emits_RUBY_INVOKE names recv name args :
  name ∈ names -> emits names (RUBY_INVOKE recv name args).
Proof.
  intros Hin. unfold RUBY_INVOKE, RUBY_INVOKE_NO_WRAP.
  apply emits_bind; [|intros; apply emits_rb_tr_wrap].
  apply emits_bind; [apply emits_rb_tr_unwrap|]. intros.
  apply emits_bind; [apply emits_unwrap_all|]. intros. by apply emits_polyglot_invoke.
Qed.

Lemma emits_rb_tr_error {A} names msg : emits names (@rb_tr_error _ A msg).
Proof. apply emits_silent. by intros w o w' [= _ <-]. Qed.

(** What [emits] says about the invocations a run added. *)
Lemma emits_new_calls {A} names (m : M A) (Q : string -> Prop) w :
  emits names m -> (forall n, n ∈ names -> Q n) ->
  Forall (fun i => Q (inv_name i)) (new_calls w (m w).2).
Proof.
  intros Hm HQ. destruct (m w) as [o w'] eqn:Hrun.
  destruct (Hm _ _ _ Hrun) as (l & Hc & Hl). simpl.
  rewrite (new_calls_app _ _ _ Hc). eapply Forall_impl; [exact Hl|]. intros i. apply HQ.
Qed.

(** X6: with a block in the calling frame, [rb_yield] and
    [rb_yield_splat] invoke the block query and then the yield operation
    with what the handle denotes, and nothing else; they never take the
    no-block path, and a non-local exit of the block is passed on. *)
Theorem yield_with_block (value : VALUE) (v : ref) (w w1 : World) :
  rb_block_given_p w = (Ret true, w1) ->
  handles w !! value = Some v ->
  new_calls w (rb_yield value w).2 =
    [Invoke RUBY_CEXT "rb_block_proc" []; Invoke RUBY_CEXT "rb_yield" [Managed v]] /\
  new_calls w (rb_yield_splat value w).2 =
    [Invoke RUBY_CEXT "rb_block_proc" []; Invoke RUBY_CEXT "rb_yield_splat" [Managed v]] /\
  (forall j w2,
      polyglot_invoke RUBY_CEXT "rb_yield" [Managed v] w1 = (Jump j, w2) ->
      rb_yield value w = (Jump j, w2)) /\
  (forall j w2,
      polyglot_invoke RUBY_CEXT "rb_yield_splat" [Managed v] w1 = (Jump j, w2) ->
      rb_yield_splat value w = (Jump j, w2)).
Proof.
  intros Hgiven Hv.
  pose proof (rb_block_given_p_calls _ _ _ Hgiven) as Hc.
  assert (Forall2 (fun x r => handles w1 !! x = Some r) [value] [v]) as Hargs.
  { repeat constructor. by apply (rb_block_given_p_keeps _ _ _ Hgiven). }
  split_and!.
  - apply new_calls_app. unfold rb_yield. rewrite (bind_Ret _ _ _ _ _ Hgiven).
    by rewrite (calls_RUBY_CEXT_INVOKE _ _ _ _ Hargs), Hc, <-app_assoc.
  - apply new_calls_app. unfold rb_yield_splat. rewrite (bind_Ret _ _ _ _ _ Hgiven).
    by rewrite (calls_RUBY_CEXT_INVOKE _ _ _ _ Hargs), Hc, <-app_assoc.
  - intros j w2 Hinv. unfold rb_yield. rewrite (bind_Ret _ _ _ _ _ Hgiven).
    unfold RUBY_CEXT_INVOKE, bind.
    rewrite (RUBY_CEXT_INVOKE_NO_WRAP_valid _ _ _ _ Hargs). simpl fmap. by rewrite Hinv.
  - intros j w2 Hinv. unfold rb_yield_splat. rewrite (bind_Ret _ _ _ _ _ Hgiven).
    unfold RUBY_CEXT_INVOKE, bind.
    rewrite (RUBY_CEXT_INVOKE_NO_WRAP_valid _ _ _ _ Hargs). simpl fmap. by rewrite Hinv.
Qed.

(** X7: [rb_iter_break] never returns, on any host and with any handle
    table, and the one invocation it issues is the break operation with
    the managed nil as value. *)
Theorem iter_break_breaks_with_nil (w : World) :
  returns (rb_iter_break w).1 = false /\
  new_calls w (rb_iter_break w).2 =
    [Invoke RUBY_CEXT "rb_iter_break_value" [Managed MNil]].
Proof.
  destruct (Qnil_spec w) as (q & w1 & Hq & Hn & _ & Hc & _).
  assert (Forall2 (fun x r => handles w1 !! x = Some r) [q] [MNil]) as Hargs.
  { by repeat constructor. }
  unfold rb_iter_break. rewrite (bind_Ret _ _ _ _ _ Hq). split.
  - unfold rb_iter_break_value. by apply bind_returns.
  - apply new_calls_app. unfold rb_iter_break_value.
    rewrite (calls_bind_silent _ _ w1) by (by intros a w0 o w' [= _ <-]).
    by rewrite (calls_RUBY_CEXT_INVOKE_NO_WRAP _ _ _ _ Hargs), Hc.
Qed.

(** X8: for [n <= 0] the variadic yield helpers run no round of the
    packing loop: they read none of their arguments and yield the array
    that [rb_ary_new_capa] returned for [n]. *)
Theorem yield_values_nonpositive (n : Z) (argv : list VALUE) (w : World) :
  n <= 0 ->
  rb_yield_values n argv w = (values <- rb_ary_new_capa n ;; rb_yield_splat values) w /\
  rb_yield_values2 n argv w = (values <- rb_ary_new_capa n ;; rb_yield_splat values) w.
Proof.
  intros Hn. unfold rb_yield_values, rb_yield_values2.
  replace (Z.to_nat n) with 0%nat by lia. simpl for_loop.
  split; unfold bind, ret; by destruct (rb_ary_new_capa n w) as [[a| | |] w0].
Qed.

(** X9: [rb_need_block] returns exactly when the calling frame has a
    block.  With a block it returns after the block query alone; without
    one it never returns, and it does not use the no-block operation of
    the yield helpers. *)
Theorem need_block_returns_iff_block (w w1 : World) (b : bool) :
  rb_block_given_p w = (Ret b, w1) ->
  (b = true -> rb_need_block w = (Ret tt, w1)) /\
  (b = false ->
     returns (rb_need_block w).1 = false /\
     Forall (fun i => inv_name i ≠ "yield_no_block") (new_calls w (rb_need_block w).2)).
Proof.
  intros Hgiven. split.
  - intros ->. unfold rb_need_block. by rewrite (bind_Ret _ _ _ _ _ Hgiven).
  - intros ->. split.
    + unfold rb_need_block. rewrite (bind_Ret _ _ _ _ _ Hgiven). simpl negb. cbv iota.
      unfold rb_raise. do 3 (apply bind_returns; intros).
      unfold rb_exc_raise. by apply bind_returns.
    + apply (emits_new_calls
               ["rb_block_proc"; "rb_eLocalJumpError"; "rb_enc_str_new_cstr"; "new";
                "rb_exc_raise"] rb_need_block (fun n => n ≠ "yield_no_block")).
      * unfold rb_need_block, rb_block_given_p, rb_block_proc, NIL_P, rb_eLocalJumpError,
          rb_raise, rb_vsprintf, rb_exc_new3, rb_exc_raise.
        repeat first
          [ apply emits_ret | apply emits_rb_tr_error | apply emits_rb_tr_unwrap
          | apply emits_rb_tr_wrap | apply emits_polyglot_invoke; set_solver
          | apply emits_RUBY_CEXT_INVOKE; set_solver
          | apply emits_RUBY_CEXT_INVOKE_NO_WRAP; set_solver
          | apply emits_RUBY_INVOKE; set_solver
          | apply emits_bind; [|intros ?]
          | match goal with |- emits _ (if ?c then _ else _) => destruct c end ].
      * intros name Hin ->. rewrite !elem_of_cons, elem_of_nil in Hin.
        intuition discriminate.
Qed.

End BlockHelpers.

(** ** Reading instance variables *)

Section IvarReads.

Context `{Platform}.

(** The operations of the bridge that change instance variables. *)
Local Abbreviation writes := ["rb_ivar_set"; "rb_copy_generic_ivar"; "rb_free_generic_ivar"].

Lemma reads_are_not_writes (names : list string) (w : World) {A} (m : M A) :
  emits names m ->
  Forall (fun n => n ∉ writes) names ->
  Forall (fun i => inv_name i ∉ writes) (new_calls w (m w).2).
Proof.
  intros Hm Hnames. apply (emits_new_calls names m (fun n => n ∉ writes)); [done|].
  intros n Hn. by eapply Forall_forall in Hnames.
Qed.

(** X10: the read accessors of ivar.c never write.  On any host and for
    any arguments, none of the invocations issued by [rb_ivar_get],
    [rb_iv_get], [rb_ivar_defined], [rb_attr_get], [rb_ivar_lookup] and
    [rb_obj_instance_variables] is a set, copy or free of instance
    variables; and [rb_ivar_foreach] is not implemented: it aborts and
    leaves everything as it was. *)
Theorem ivar_reads_never_write (object default_value : VALUE) (name : ID) (cname : string)
    (w : World) :
  Forall (fun i => inv_name i ∉ writes) (new_calls w (rb_ivar_get object name w).2) /\
  Forall (fun i => inv_name i ∉ writes) (new_calls w (rb_iv_get object cname w).2) /\
  Forall (fun i => inv_name i ∉ writes) (new_calls w (rb_ivar_defined object name w).2) /\
  Forall (fun i => inv_name i ∉ writes) (new_calls w (rb_attr_get object name w).2) /\
  Forall (fun i => inv_name i ∉ writes)
    (new_calls w (rb_ivar_lookup object cname default_value w).2) /\
  Forall (fun i => inv_name i ∉ writes) (new_calls w (rb_obj_instance_variables object w).2) /\
  (forall func arg,
      rb_ivar_foreach object func arg w = (Fatal "rb_ivar_foreach not implemented", w)).
Proof.
  assert (forall names : list string,
            bool_decide (Forall (fun n => n ∉ writes) names) = true ->
            Forall (fun n => n ∉ writes) names) as Hdec.
  { intros names. apply bool_decide_eq_true_1. }
  split_and!; [| | | | | |done].
  - apply (reads_are_not_writes ["rb_ivar_get"]); [|by apply Hdec].
    unfold rb_ivar_get, ID2SYM.
    apply emits_bind; [apply emits_rb_tr_wrap|]. intros.
    apply emits_RUBY_CEXT_INVOKE. set_solver.
  - apply (reads_are_not_writes ["rb_str_new_cstr"; "rb_to_id"; "rb_ivar_get"]);
      [|by apply Hdec].
    unfold rb_iv_get, rb_str_new_cstr, rb_to_id, ID2SYM.
    repeat first
      [ apply emits_ret | apply emits_undefined | apply emits_rb_tr_wrap
      | apply emits_polyglot_invoke; set_solver
      | apply emits_RUBY_CEXT_INVOKE; set_solver
      | apply emits_RUBY_CEXT_INVOKE_NO_WRAP; set_solver
      | apply emits_bind; [|intros ?]
      | match goal with |- emits _ (match ?x with _ => _ end) => destruct x end ].
  - apply (reads_are_not_writes ["rb_ivar_defined"]); [|by apply Hdec].
    unfold rb_ivar_defined, ID2SYM.
    apply emits_bind; [apply emits_rb_tr_wrap|]. intros.
    apply emits_RUBY_CEXT_INVOKE. set_solver.
  - apply (reads_are_not_writes ["rb_ivar_lookup"]); [|by apply Hdec].
    unfold rb_attr_get, ID2SYM, Qnil.
    apply emits_bind; [apply emits_rb_tr_wrap|]. intros.
    apply emits_bind; [apply emits_rb_tr_wrap|]. intros.
    apply emits_RUBY_CEXT_INVOKE. set_solver.
  - apply (reads_are_not_writes ["rb_ivar_lookup"]); [|by apply Hdec].
    unfold rb_ivar_lookup.
    apply emits_bind; [apply emits_rb_tr_unwrap|]. intros.
    apply emits_bind; [apply emits_rb_tr_unwrap|]. intros.
    apply emits_bind; [apply emits_polyglot_invoke; set_solver|]. intros.
    apply emits_rb_tr_wrap.
  - apply (reads_are_not_writes ["rb_obj_instance_variables"]); [|by apply Hdec].
    apply emits_RUBY_CEXT_INVOKE. set_solver.
Qed.

End IvarReads.

(** ** The adapters of a blocking region *)

Section Adapters.

Context `{Platform}.

(** The argument list of the blocking-region invocation: the trampoline
    and adapter of the blocking function, then the callback [x] and the
    adapter of the unblock function. *)
Lemma run_host_adapters (cs : gvl_call_data) (us : unblock_function_data) (x : raw) p w o w' :
  x = Managed MNil \/ x = Fun FnCallUnblock ->
  faithful [Fun FnCallGvl; PtrGvl cs; x; PtrUnblock us] p ->
  run_host p w = (o, w') ->
  exists l, derefs w' = derefs w ++ l /\
    Forall (fun c => c = GvlCall (gc_function cs) (gc_data cs) \/
                     c = UnblockCall (ub_function us) (ub_data us)) l.
Proof.
  intros Hx Hp. revert w. induction Hp as [o0 s|f arg k Hf Harg _ IH]; intros w; simpl.
  - intros [= _ <-]. exists []. by rewrite app_nil_r.
  - assert (exists l1, forall o1 w1, call_native f arg w = (o1, w1) ->
              derefs w1 = derefs w ++ l1 /\
              Forall (fun c => c = GvlCall (gc_function cs) (gc_data cs) \/
                               c = UnblockCall (ub_function us) (ub_data us)) l1)
      as (l1 & Hl1).
    { assert (f = FnCallGvl \/ f = FnCallUnblock) as [-> | ->].
      { rewrite !elem_of_cons, elem_of_nil in Hf.
        destruct Hx as [-> | ->]; destruct Hf as [Hf|[Hf|[Hf|[Hf|[]]]]];
          inversion Hf; auto. }
      - simpl. unfold call_gvl_call_function, undefined, bind, ret.
        destruct arg as [| | | | |s| |];
          try (exists []; intros o1 w1 [= _ <-]; by rewrite app_nil_r).
        assert (s = cs) as ->.
        { rewrite !elem_of_cons, elem_of_nil in Harg.
          destruct Hx as [-> | ->]; destruct Harg as [Ha|[Ha|[Ha|[Ha|[]]]]];
            inversion Ha; auto. }
        exists [GvlCall (gc_function cs) (gc_data cs)]. intros o1 w1.
        destruct (call_fnptr _ _ _ w) as [[r| | |] w0] eqn:Hc;
          apply call_fnptr_frame in Hc as (_ & _ & Hd); intros [= _ <-];
          (split; [done|]); apply Forall_singleton; auto.
      - simpl. unfold call_unblock_function, undefined, bind, ret.
        destruct arg as [| | | | | |s|];
          try (exists []; intros o1 w1 [= _ <-]; by rewrite app_nil_r).
        assert (s = us) as ->.
        { rewrite !elem_of_cons, elem_of_nil in Harg.
          destruct Hx as [-> | ->]; destruct Harg as [Ha|[Ha|[Ha|[Ha|[]]]]];
            inversion Ha; auto. }
        exists [UnblockCall (ub_function us) (ub_data us)]. intros o1 w1.
        destruct (call_fnptr _ _ _ w) as [[r| | |] w0] eqn:Hc;
          apply call_fnptr_frame in Hc as (_ & _ & Hd); intros [= _ <-];
          (split; [done|]); apply Forall_singleton; auto. }
    unfold bind. destruct (call_native f arg w) as [[r| | |] w0] eqn:Hc;
      destruct (Hl1 _ _ eq_refl) as [Hd1 Hall1];
      try (intros [= _ <-]; by exists l1).
    intros (l2 & Hd2 & Hall2)%IH. exists (l1 ++ l2).
    rewrite Hd2, Hd1, app_assoc. split; [done|]. by apply Forall_app.
Qed.

(** X11: what can run in a blocking region.  With an unblock function
    other than the sentinel, [rb_thread_call_without_gvl] hands the host
    its two trampolines and the two adapter structures and leaves the
    handle table alone; and, sentinel or not, on a host that calls back
    only through what it was given, every call made through an adapter is
    the blocking function on [data1] or the unblock function on [data2]. *)
Theorem blocking_region_runs_only_its_functions (function unblock_function : fnptr)
    (data1 data2 : Z) (w : World) :
  let w' := (rb_thread_call_without_gvl function data1 unblock_function data2 w).2 in
  (unblock_function ≠ RUBY_UBF_IO ->
     new_calls w w' =
       [Invoke RUBY_CEXT "rb_thread_call_without_gvl"
          [Fun FnCallGvl; PtrGvl (mk_gvl_call_data function data1);
           Fun FnCallUnblock;
           PtrUnblock (mk_unblock_function_data unblock_function data2)]] /\
     handles w' = handles w) /\
  (faithful_host ->
     Forall (fun c => c = GvlCall function data1 \/ c = UnblockCall unblock_function data2)
       (new_derefs w w')).
Proof.
  unfold rb_thread_call_without_gvl.
  set (cs := mk_gvl_call_data function data1).
  set (us := mk_unblock_function_data unblock_function data2).
  destruct (decide (unblock_function = RUBY_UBF_IO)) as [Hs|Hs].
  - simpl. split; [done|]. intros Hfaith. unfold Qnil.
    destruct (rb_tr_wrap_spec MNil w) as (q & w0 & Hq & Hq' & _).
    destruct (rb_tr_wrap_frame _ _ _ _ Hq) as (_ & _ & Hd0).
    rewrite bind_assoc, (bind_Ret _ _ _ _ _ Hq).
    rewrite (bind_Ret _ _ _ _ _ (rb_tr_unwrap_valid _ _ _ Hq')).
    destruct (polyglot_invoke _ _ _ w0) as [o w'] eqn:Hrun. simpl.
    unfold polyglot_invoke in Hrun.
    eapply (run_host_adapters cs us (Managed MNil)) in Hrun as (l & Hd & Hl);
      [|by left|apply Hfaith].
    simpl in Hd. unfold new_derefs. by rewrite Hd, Hd0, drop_app_length.
  - simpl. unfold bind, ret.
    destruct (polyglot_invoke _ _ _ w) as [o w'] eqn:Hrun. simpl.
    split.
    + intros _. pose proof (polyglot_invoke_frame _ _ _ _ _ _ Hrun) as [Hh Hc].
      split; [by apply new_calls_app|done].
    + intros Hfaith. unfold polyglot_invoke in Hrun.
      eapply (run_host_adapters cs us (Fun FnCallUnblock)) in Hrun as (l & Hd & Hl);
        [|by right|apply Hfaith].
      simpl in Hd. unfold new_derefs. by rewrite Hd, drop_app_length.
Qed.

End Adapters.

(** ** Yielding to a block on the reference host *)

Section YieldToBlock.

Variable fns : nat -> Z -> Z.

Local Abbreviation P := (RefHost.platform fns).

Lemma set_heap_id (s : RefHost.state) : RefHost.set_heap (RefHost.heap s) s = s.
Proof. by destruct s. Qed.

Lemma invoke_rb_block_proc s :
  RefHost.invoke RUBY_CEXT "rb_block_proc" [] s = RefHost.finish (RefHost.block s) s.
Proof. reflexivity. Qed.

Lemma invoke_rb_yield_splat a s :
  RefHost.invoke RUBY_CEXT "rb_yield_splat" [Managed a] s =
  match RefHost.array_at s a with
  | Some l => RefHost.yield l s
  | None => RefHost.raise "TypeError" "no implicit conversion into Array" s
  end.
Proof. reflexivity. Qed.

Lemma rb_ary_new_capa_frame n (w : @World P) :
  0 <= n ->
  exists values w1,
    rb_ary_new_capa n w = (Ret values, w1) /\
    handles w1 !! values = Some (MObj (length (RefHost.heap (host w)))) /\
    (forall v r, handles w !! v = Some r -> handles w1 !! v = Some r) /\
    host w1 = RefHost.set_heap (RefHost.heap (host w) ++ [RefHost.HArray []]) (host w).
Proof.
  intros Hn. unfold rb_ary_new_capa.
  set (w0 := @mkWorld P (handles w)
               (RefHost.set_heap (RefHost.heap (host w) ++ [RefHost.HArray []]) (host w))
               (calls w ++ [Invoke RUBY_CEXT "rb_ary_new_capa" [Int n]]) (derefs w)).
  assert (polyglot_invoke RUBY_CEXT "rb_ary_new_capa" [Int n] w =
          (Ret (Managed (MObj (length (RefHost.heap (host w))))), w0)) as Hinv.
  { apply polyglot_invoke_done. simpl host_invoke.
    rewrite invoke_rb_ary_new_capa. by rewrite decide_False by lia. }
  rewrite (bind_Ret _ _ _ _ _ Hinv).
  destruct (rb_tr_wrap_spec (MObj (length (RefHost.heap (host w)))) w0)
    as (values & w1 & Hw & Hl & Hkeep & Hhost & _).
  exists values, w1. split_and!; [done|done|by auto|by rewrite Hhost].
Qed.

Lemma rb_ary_store_frame array value a r l (w : @World P) :
  handles w !! array = Some (MObj a) ->
  handles w !! value = Some r ->
  RefHost.heap (host w) !! a = Some (RefHost.HArray l) ->
  exists w',
    rb_ary_store array (Z.of_nat (length l)) value w = (Ret tt, w') /\
    handles w' = handles w /\
    host w' = RefHost.set_heap (<[a := RefHost.HArray (l ++ [r])]> (RefHost.heap (host w)))
                (host w).
Proof.
  intros Ha Hv Hl. unfold rb_ary_store.
  rewrite (bind_Ret _ _ _ _ _ (rb_tr_unwrap_valid _ _ _ Ha)).
  rewrite (bind_Ret _ _ _ _ _ (rb_tr_unwrap_valid _ _ _ Hv)).
  eexists. erewrite bind_Ret.
  2:{ apply polyglot_invoke_done. simpl host_invoke.
      rewrite invoke_rb_ary_store, Hl, ary_store_append. reflexivity. }
  split_and!; reflexivity.
Qed.

Lemma store_loop_frame argv values a :
  forall todo_v todo_r, Forall2 (fun _ _ => True) todo_v todo_r ->
  forall done_v done_r (w : @World P),
    argv = done_v ++ todo_v ->
    length done_v = length done_r ->
    Forall2 (fun v r => handles w !! v = Some r) todo_v todo_r ->
    handles w !! values = Some (MObj a) ->
    RefHost.heap (host w) !! a = Some (RefHost.HArray done_r) ->
    exists w',
      for_loop (Z.of_nat (length done_v)) (length todo_v)
        (fun i => v <- read_argv argv i ;; rb_ary_store values i v) w = (Ret tt, w') /\
      handles w' = handles w /\
      host w' = RefHost.set_heap
                  (<[a := RefHost.HArray (done_r ++ todo_r)]> (RefHost.heap (host w)))
                  (host w).
Proof.
  intros todo_v todo_r Hshape.
  induction Hshape as [|v r todo_v todo_r _ _ IH];
    intros done_v done_r w Hargv Hlen Hvalid Hvalues Hheap.
  - exists w. rewrite app_nil_r, (list_insert_id _ _ _ Hheap), set_heap_id. done.
  - apply Forall2_cons_1 in Hvalid as [Hv Hrest]. simpl for_loop.
    assert (read_argv argv (Z.of_nat (length done_v)) w = (Ret v, w)) as Hread.
    { unfold read_argv. rewrite decide_True by lia. rewrite Nat2Z.id, Hargv.
      by rewrite list_lookup_middle. }
    destruct (rb_ary_store_frame values v a r done_r w Hvalues Hv Hheap)
      as (w1 & Hstore & Hh1 & Hhost1).
    assert ((x <- read_argv argv (Z.of_nat (length done_v)) ;;
             rb_ary_store values (Z.of_nat (length done_v)) x) w = (Ret tt, w1)) as Hstep.
    { rewrite (bind_Ret _ _ _ _ _ Hread). by rewrite Hlen. }
    rewrite (bind_Ret _ _ _ _ _ Hstep).
    destruct (IH (done_v ++ [v]) (done_r ++ [r]) w1) as (w' & Hloop & Hh' & Hhost').
    + by rewrite <-app_assoc.
    + rewrite !length_app. simpl. lia.
    + by rewrite Hh1.
    + by rewrite Hh1.
    + rewrite Hhost1. simpl. apply list_lookup_insert_eq. by eapply lookup_lt_Some.
    + exists w'. split_and!.
      * rewrite length_app in Hloop. simpl in Hloop.
        by replace (Z.of_nat (length done_v) + 1) with (Z.of_nat (length done_v + 1)) by lia.
      * congruence.
      * rewrite Hhost', Hhost1. unfold RefHost.set_heap. simpl.
        by rewrite list_insert_insert_eq, <-app_assoc.
Qed.

(** Yielding an array to the block of the calling frame. *)
Lemma rb_yield_splat_to_block values a l p body (w : @World P) :
  handles w !! values = Some (MObj a) ->
  RefHost.heap (host w) !! a = Some (RefHost.HArray l) ->
  RefHost.block (host w) = MObj p ->
  RefHost.heap (host w) !! p = Some (RefHost.HProc body) ->
  result_of (rb_yield_splat values w) =
    match body l with
    | Ret r => Ret (Some r)
    | Jump j => Jump j
    | Fatal msg => Fatal msg
    | Undefined => Undefined
    end.
Proof.
  intros Hvalues Harray Hblock Hproc.
  set (w0 := @mkWorld P (handles w) (host w)
               (calls w ++ [Invoke RUBY_CEXT "rb_block_proc" []]) (derefs w)).
  destruct (rb_tr_wrap_spec (MObj p) w0) as (h & w1 & Hw & Hh & Hkeep & Hhost & _).
  assert (rb_block_given_p w = (Ret true, w1)) as Hgiven.
  { unfold rb_block_given_p, rb_block_proc, RUBY_CEXT_INVOKE, RUBY_CEXT_INVOKE_NO_WRAP.
    simpl unwrap_all. rewrite !bind_assoc. unfold bind at 1. unfold ret at 1.
    erewrite bind_Ret.
    2:{ apply polyglot_invoke_done. simpl host_invoke. rewrite invoke_rb_block_proc.
        reflexivity. }
    rewrite Hblock. fold w0. rewrite (bind_Ret _ _ _ _ _ Hw).
    unfold NIL_P. rewrite bind_assoc.
    by rewrite (bind_Ret _ _ _ _ _ (rb_tr_unwrap_valid _ _ _ Hh)). }
  unfold rb_yield_splat. rewrite (bind_Ret _ _ _ _ _ Hgiven).
  unfold RUBY_CEXT_INVOKE, RUBY_CEXT_INVOKE_NO_WRAP. rewrite !bind_assoc.
  assert (Forall2 (fun x r => handles w1 !! x = Some r) [values] [MObj a]) as Hargs.
  { repeat constructor. apply Hkeep. exact Hvalues. }
  rewrite (bind_Ret _ _ _ _ _ (unwrap_all_valid _ _ _ Hargs)). simpl fmap.
  assert (host_invoke RUBY_CEXT "rb_yield_splat" [Managed (MObj a)] (host w1) =
          RefHost.done_with (body l) (host w1)) as Hinv.
  { simpl host_invoke. rewrite invoke_rb_yield_splat. rewrite Hhost. simpl.
    rewrite Harray. unfold RefHost.yield. rewrite Hblock. simpl. by rewrite Hproc. }
  unfold polyglot_invoke, bind. simpl host. rewrite Hinv.
  destruct (body l) as [r| | |]; [|done..].
  unfold RefHost.done_with, RefHost.finish. cbn [run_host].
  match goal with |- context [rb_tr_wrap (Managed r) ?w2] =>
    destruct (rb_tr_wrap_spec r w2) as (h' & w3 & Hw' & Hh' & _) end.
  rewrite Hw'. simpl. by rewrite Hh'.
Qed.

(** X12: on the reference host, with a block in the calling frame,
    [rb_yield_values] and [rb_yield_values2] give the block what their
    [n >= 0] arguments denote, in their order, and hand back what the
    block returns; a non-local exit of the block leaves the helper the
    same way. *)
Theorem yield_values_reach_block (n : Z) (argv : list VALUE) (refs : list ref)
    (p : nat) (body : list ref -> outcome ref) (w : @World P) :
  0 <= n ->
  length argv = Z.to_nat n ->
  Forall2 (fun v r => handles w !! v = Some r) argv refs ->
  RefHost.block (host w) = MObj p ->
  RefHost.heap (host w) !! p = Some (RefHost.HProc body) ->
  let answer := match body refs with
                | Ret r => Ret (Some r)
                | Jump j => Jump j
                | Fatal msg => Fatal msg
                | Undefined => Undefined
                end in
  result_of (rb_yield_values n argv w) = answer /\
  result_of (rb_yield_values2 n argv w) = answer.
Proof.
  intros Hn Hlen Hvalid Hblock Hproc answer.
  destruct (rb_ary_new_capa_frame n w Hn) as (values & w1 & Hnew & Hvalues & Hkeep & Hhost).
  set (a := length (RefHost.heap (host w))) in *.
  assert (RefHost.heap (host w1) !! a = Some (RefHost.HArray [])) as Hempty.
  { rewrite Hhost. simpl. by apply list_lookup_middle. }
  assert (Forall2 (fun v r => handles w1 !! v = Some r) argv refs) as Hvalid1.
  { eapply Forall2_impl; [exact Hvalid|]. auto. }
  destruct (store_loop_frame argv values a argv refs
              ltac:(eapply Forall2_impl; [exact Hvalid|done])
              [] [] w1 eq_refl eq_refl Hvalid1 Hvalues Hempty) as (w' & Hrun2 & Hh & Hhost').
  simpl in Hrun2. rewrite Hlen in Hrun2.
  assert (for_loop 0 (Z.to_nat n)
            (fun i => v <- polyglot_get_arg argv (1 + i) ;; rb_ary_store values i v) w1 =
          (Ret tt, w')) as Hrun.
  { rewrite <-Hrun2. apply for_loop_ext. intros i w0.
    unfold polyglot_get_arg. by replace (1 + i - 1) with i by lia. }
  assert (p < a)%nat as Hp by (by eapply lookup_lt_Some).
  assert (result_of (rb_yield_splat values w') = answer) as Hyield.
  { apply (rb_yield_splat_to_block values a refs p body w').
    - by rewrite Hh.
    - rewrite Hhost', Hhost. simpl. apply list_lookup_insert_eq.
      rewrite length_app. simpl. lia.
    - by rewrite Hhost', Hhost.
    - rewrite Hhost', Hhost. simpl.
      rewrite list_lookup_insert_ne by lia. by rewrite lookup_app_l. }
  split.
  - unfold rb_yield_values.
    by rewrite (bind_Ret _ _ _ _ _ Hnew), (bind_Ret _ _ _ _ _ Hrun).
  - unfold rb_yield_values2.
    by rewrite (bind_Ret _ _ _ _ _ Hnew), (bind_Ret _ _ _ _ _ Hrun2).
Qed.

End YieldToBlock.

(** ** Instance variables by C name, on the reference host *)

Section IvarsByName.

Variable fns : nat -> Z -> Z.

Local Abbreviation P := (RefHost.platform fns).

Lemma invoke_rb_str_new_cstr bytes s :
  RefHost.invoke RUBY_CEXT "rb_str_new_cstr" [CStr bytes] s =
  RefHost.finish_new (RefHost.HString bytes ASCII_8BIT) s.
Proof. reflexivity. Qed.

Lemma invoke_rb_to_id_object a s :
  RefHost.invoke RUBY_CEXT "rb_to_id" [Managed (MObj a)] s =
  match RefHost.string_at s (MObj a) with
  | Some (bytes, _) => RefHost.finish (MSym bytes) s
  | None => RefHost.raise "TypeError" "is not a symbol nor a string" s
  end.
Proof. reflexivity. Qed.

(** The conversion of a C name that [rb_iv_get] and [rb_iv_set] start
    with: a managed string, its [ID], and the handle of the symbol. *)
Lemma name_to_symbol cname (w : @World P) :
  exists s w1 w2 sym w3,
    rb_str_new_cstr cname w = (Ret s, w1) /\
    rb_to_id s w1 = (Ret (mkID (c_str cname)), w2) /\
    ID2SYM (mkID (c_str cname)) w2 = (Ret sym, w3) /\
    handles w3 !! sym = Some (MSym (c_str cname)) /\
    (forall v r, handles w !! v = Some r -> handles w3 !! v = Some r) /\
    (Handle.wf (handles w) -> Handle.wf (handles w3)) /\
    RefHost.ivars (host w3) = RefHost.ivars (host w).
Proof.
  set (a := length (RefHost.heap (host w))).
  set (s1 := RefHost.set_heap
               (RefHost.heap (host w) ++ [RefHost.HString (c_str cname) ASCII_8BIT]) (host w)).
  set (w0 := @mkWorld P (handles w) s1
               (calls w ++ [Invoke RUBY_CEXT "rb_str_new_cstr" [CStr (c_str cname)]])
               (derefs w)).
  destruct (rb_tr_wrap_spec (MObj a) w0) as (s & w1 & Hs & Hsl & Hkeep1 & Hhost1 & Hwf1).
  set (w2 := @mkWorld P (handles w1) (host w1)
               (calls w1 ++ [Invoke RUBY_CEXT "rb_to_id" [Managed (MObj a)]]) (derefs w1)).
  destruct (ID2SYM_spec (mkID (c_str cname)) w2)
    as (sym & w3 & Hsym & Hsyml & Hkeep3 & _ & Hhost3 & _ & Hwf3).
  exists s, w1, w2, sym, w3. split_and!.
  - unfold rb_str_new_cstr. erewrite bind_Ret; [exact Hs|].
    apply polyglot_invoke_done. simpl host_invoke. by rewrite invoke_rb_str_new_cstr.
  - unfold rb_to_id, RUBY_CEXT_INVOKE_NO_WRAP. rewrite bind_assoc.
    assert (Forall2 (fun x r => handles w1 !! x = Some r) [s] [MObj a]) as Hargs.
    { by repeat constructor. }
    rewrite (bind_Ret _ _ _ _ _ (unwrap_all_valid _ _ _ Hargs)). simpl fmap.
    assert (RefHost.string_at (host w1) (MObj a) = Some (c_str cname, ASCII_8BIT)) as Hstring.
    { rewrite Hhost1. simpl. by rewrite list_lookup_middle. }
    assert (polyglot_invoke RUBY_CEXT "rb_to_id" [Managed (MObj a)] w1 =
            (Ret (Managed (MSym (c_str cname))), w2)) as Hinv.
    { apply polyglot_invoke_done. simpl host_invoke.
      by rewrite invoke_rb_to_id_object, Hstring. }
    by rewrite (bind_Ret _ _ _ _ _ Hinv).
  - exact Hsym.
  - exact Hsyml.
  - intros v r Hv. apply Hkeep3. simpl. apply Hkeep1. exact Hv.
  - intros Hwf. apply Hwf3. simpl. apply Hwf1. exact Hwf.
  - rewrite Hhost3. simpl. by rewrite Hhost1.
Qed.

(** Reading an instance variable that is set, by the handle of its key. *)
Lemma read_defined_ivar object sym value o n v (w : @World P) :
  Handle.wf (handles w) ->
  handles w !! object = Some o ->
  handles w !! sym = Some (MSym n) ->
  handles w !! value = Some v ->
  RefHost.ivars (host w) !! (o, n) = Some v ->
  (RUBY_CEXT_INVOKE "rb_ivar_get" [object; sym] w).1 = Ret value /\
  (forall q, handles w !! q = Some MNil ->
     (RUBY_CEXT_INVOKE "rb_ivar_lookup" [object; sym; q] w).1 = Ret value).
Proof.
  intros Hwf Ho Hs Hv Hlook. split.
  - unfold RUBY_CEXT_INVOKE, RUBY_CEXT_INVOKE_NO_WRAP. rewrite bind_assoc.
    assert (Forall2 (fun x r => handles w !! x = Some r) [object; sym] [o; MSym n]) as Hargs.
    { by repeat constructor. }
    rewrite (bind_Ret _ _ _ _ _ (unwrap_all_valid _ _ _ Hargs)). simpl fmap.
    unfold bind. erewrite polyglot_invoke_done by reflexivity.
    simpl in Hlook. rewrite Hlook. simpl default.
    by erewrite rb_tr_wrap_known.
  - intros q Hq.
    unfold RUBY_CEXT_INVOKE, RUBY_CEXT_INVOKE_NO_WRAP. rewrite bind_assoc.
    assert (Forall2 (fun x r => handles w !! x = Some r)
              [object; sym; q] [o; MSym n; MNil]) as Hargs.
    { by repeat constructor. }
    rewrite (bind_Ret _ _ _ _ _ (unwrap_all_valid _ _ _ Hargs)). simpl fmap.
    unfold bind. erewrite polyglot_invoke_done by reflexivity.
    simpl in Hlook. rewrite Hlook. simpl default.
    by erewrite rb_tr_wrap_known.
Qed.

(** X14: instance variables by C name and by [ID] are the same
    variables.  On the reference host, for valid handles in a table where
    every reference owns one slot, a value stored with [rb_iv_set] under a
    C name is what [rb_iv_get] returns for that name, and what
    [rb_ivar_get] and [rb_attr_get] return for the [ID] of that name. *)
Theorem iv_set_then_read (object value : VALUE) (o v : ref) (cname : string)
    (w : @World P) :
  Handle.wf (handles w) ->
  handles w !! object = Some o ->
  handles w !! value = Some v ->
  exists w1 : @World P,
    rb_iv_set object cname value w = (Ret value, w1) /\
    (rb_iv_get object cname w1).1 = Ret value /\
    (rb_ivar_get object (rb_intern (c_str cname)) w1).1 = Ret value /\
    (rb_attr_get object (rb_intern (c_str cname)) w1).1 = Ret value.
Proof.
  intros Hwf Ho Hv.
  destruct (name_to_symbol cname w)
    as (s & wa & wb & sym & wc & Hstr & Hid & Hsym & Hsyml & Hkeep & Hwfc & Hiv).
  set (s1 := RefHost.set_ivars (<[(o, c_str cname) := v]> (RefHost.ivars (host wc))) (host wc)).
  set (w1 := @mkWorld P (handles wc) s1
               (calls wc ++ [Invoke RUBY_CEXT "rb_ivar_set"
                  [Managed o; Managed (MSym (c_str cname)); Managed v]]) (derefs wc)).
  assert (rb_iv_set object cname value w = (Ret value, w1)) as Hset.
  { unfold rb_iv_set.
    rewrite (bind_Ret _ _ _ _ _ Hstr), (bind_Ret _ _ _ _ _ Hid), (bind_Ret _ _ _ _ _ Hsym).
    unfold RUBY_CEXT_INVOKE_NO_WRAP. rewrite bind_assoc.
    assert (Forall2 (fun x r => handles wc !! x = Some r)
              [object; sym; value] [o; MSym (c_str cname); v]) as Hargs.
    { repeat constructor; auto. }
    rewrite (bind_Ret _ _ _ _ _ (unwrap_all_valid _ _ _ Hargs)). simpl fmap.
    unfold bind at 1. by erewrite polyglot_invoke_done by reflexivity. }
  assert (Handle.wf (handles w1)) as Hwf1 by (simpl; auto).
  assert (handles w1 !! object = Some o) as Ho1 by (simpl; auto).
  assert (handles w1 !! value = Some v) as Hv1 by (simpl; auto).
  assert (RefHost.ivars (host w1) !! (o, c_str cname) = Some v) as Hlook.
  { simpl. apply lookup_insert_eq. }
  exists w1. split_and!; [done| | |].
  - destruct (name_to_symbol cname w1)
      as (s' & wa' & wb' & sym' & wc' & Hstr' & Hid' & Hsym' & Hsyml' & Hkeep' & Hwfc' & Hiv').
    unfold rb_iv_get.
    rewrite (bind_Ret _ _ _ _ _ Hstr'), (bind_Ret _ _ _ _ _ Hid'), (bind_Ret _ _ _ _ _ Hsym').
    apply (read_defined_ivar object sym' value o (c_str cname) v wc'); auto.
    by rewrite Hiv'.
  - destruct (ID2SYM_spec (rb_intern (c_str cname)) w1)
      as (sym' & w2 & Hsym' & Hsyml' & Hkeep' & _ & Hhost' & _ & Hwf').
    unfold rb_ivar_get. rewrite (bind_Ret _ _ _ _ _ Hsym').
    apply (read_defined_ivar object sym' value o (c_str cname) v w2); auto.
    by rewrite Hhost'.
  - destruct (ID2SYM_spec (rb_intern (c_str cname)) w1)
      as (sym' & w2 & Hsym' & Hsyml' & Hkeep' & _ & Hhost' & _ & Hwf').
    destruct (Qnil_spec w2) as (q & w3 & Hq & Hql & Hkeep3 & _ & Hhost3 & _ & Hwf3).
    unfold rb_attr_get. rewrite (bind_Ret _ _ _ _ _ Hsym'), (bind_Ret _ _ _ _ _ Hq).
    apply (read_defined_ivar object sym' value o (c_str cname) v w3); auto.
    by rewrite Hhost3, Hhost'.
Qed.

End IvarsByName.

(** ** The reference host calls back as it was asked to *)

Section BlockingRegionRuns.

Variable fns : nat -> Z -> Z.

Local Abbreviation P := (RefHost.platform fns).

Lemma ref_host_faithful : @faithful_host P.
Proof.
  intros target name args s. simpl. unfold RefHost.invoke.
  assert (forall c m s0, @faithful P args (RefHost.raise c m s0)) as Hraise
    by (intros; constructor).
  assert (forall r s0, @faithful P args (RefHost.finish r s0)) as Hfinish
    by (intros; constructor).
  assert (forall o s0, @faithful P args (RefHost.finish_new o s0)) as Hnew
    by (intros; constructor).
  assert (forall o s0, @faithful P args (RefHost.done_with o s0)) as Hdone
    by (intros [] ?; constructor).
  assert (forall l s0, @faithful P args (RefHost.yield l s0)) as Hyield.
  { intros l s0. unfold RefHost.yield.
    destruct (RefHost.proc_at s0 (RefHost.block s0)); auto. }
  assert (forall recv n l blk s0, @faithful P args (RefHost.dispatch recv n l blk s0))
    as Hdispatch.
  { intros. unfold RefHost.dispatch. repeat case_match; auto; constructor. }
  destruct target as [r| | | | | | |]; try apply Hraise.
  destruct (decide (r = MCext)) as [->|Hr].
  2:{ destruct r; try done;
        (destruct (RefHost.managed_all args); [apply Hdispatch | apply Hraise]). }
  unfold RefHost.cext_invoke, RefHost.bad_args.
  repeat match goal with
         | |- faithful _ (if String.eqb ?a ?b then _ else _) => destruct (String.eqb a b)
         end;
    try apply Hraise; try apply Hfinish;
    repeat match goal with
           | |- faithful _ (match ?x with _ => _ end) => destruct x
           end;
    auto;
    repeat first
      [ apply (@faithful_done P)
      | apply (@faithful_call P); [set_solver | set_solver | intros ?] ].
Qed.

End BlockingRegionRuns.

(** ** Further runs on the reference host *)

Lemma ivar_accessors_same_key_witness :
  new_calls Sample.w_no_block (rb_ivar_set 0%nat (rb_intern "@a") 1%nat Sample.w_no_block).2 =
    [Invoke RUBY_CEXT "rb_ivar_set" [Managed (MObj 0); Managed (MSym "@a"); Managed (MInt 7)]] /\
  new_calls Sample.w_no_block (rb_ivar_get 0%nat (rb_intern "@a") Sample.w_no_block).2 =
    [Invoke RUBY_CEXT "rb_ivar_get" [Managed (MObj 0); Managed (MSym "@a")]].
Proof.
  destruct (ivar_accessors_same_key 0%nat 1%nat (MObj 0) (MInt 7) (rb_intern "@a")
              Sample.w_no_block eq_refl eq_refl) as (Hset & Hget & _).
  split; assumption.
Defined.

Lemma attr_get_is_lookup_with_nil_witness :
  new_calls Sample.w_no_block (rb_attr_get 0%nat (rb_intern "@a") Sample.w_no_block).2 =
    [Invoke RUBY_CEXT "rb_ivar_lookup" [Managed (MObj 0); Managed (MSym "@a"); Managed MNil]] /\
  new_calls Sample.w_no_block (rb_ivar_lookup 0%nat "@a" 1%nat Sample.w_no_block).2 =
    [Invoke RUBY_CEXT "rb_ivar_lookup" [Managed (MObj 0); CStr "@a"; Managed (MInt 7)]].
Proof.
  apply (attr_get_is_lookup_with_nil 0%nat 1%nat (MObj 0) (MInt 7) (rb_intern "@a") "@a"
           Sample.w_no_block); reflexivity.
Defined.

Lemma function_pointers_cross_unwrapped_witness :
  new_calls Sample.w_no_block (rb_iterate (FnUser 1) 0%nat (FnUser 2) 1%nat Sample.w_no_block).2 =
    [Invoke RUBY_CEXT "rb_iterate"
       [Fun (FnUser 1); Managed (MObj 0); Fun (FnUser 2); Managed (MInt 7)]].
Proof.
  apply (function_pointers_cross_unwrapped (FnUser 1) (FnUser 2) 0%nat 1%nat
           (MObj 0) (MInt 7) 0 Sample.w_no_block); reflexivity.
Defined.

Lemma respond_to_without_handles_witness :
  handles (rb_obj_respond_to 0%nat (rb_intern "each") 0 Sample.w_no_block).2 =
    handles Sample.w_no_block.
Proof.
  apply (respond_to_without_handles 0%nat (MObj 0) (rb_intern "each") 0 Sample.w_no_block).
  reflexivity.
Defined.

Lemma yield_with_block_witness :
  new_calls Sample.w_with_block (rb_yield 1%nat Sample.w_with_block).2 =
    [Invoke RUBY_CEXT "rb_block_proc" []; Invoke RUBY_CEXT "rb_yield" [Managed (MInt 7)]].
Proof.
  apply (yield_with_block 1%nat (MInt 7) Sample.w_with_block
           (rb_block_given_p Sample.w_with_block).2); reflexivity.
Defined.

Lemma yield_values_nonpositive_witness :
  rb_yield_values (-1) [5; 6]%nat Sample.w_with_block =
  rb_yield_values2 (-1) [] Sample.w_with_block.
Proof.
  destruct (yield_values_nonpositive (-1) [5; 6]%nat Sample.w_with_block) as [-> _]; [lia|].
  destruct (yield_values_nonpositive (-1) [] Sample.w_with_block) as [_ ->]; [lia|].
  reflexivity.
Defined.

Lemma need_block_returns_iff_block_witness :
  rb_need_block Sample.w_with_block = (Ret tt, (rb_block_given_p Sample.w_with_block).2) /\
  returns (rb_need_block Sample.w_no_block).1 = false.
Proof.
  split.
  - apply (need_block_returns_iff_block Sample.w_with_block
             (rb_block_given_p Sample.w_with_block).2 true); reflexivity.
  - apply (need_block_returns_iff_block Sample.w_no_block
             (rb_block_given_p Sample.w_no_block).2 false); reflexivity.
Defined.

Lemma blocking_region_runs_only_its_functions_witness :
  Forall (fun c => c = GvlCall (FnUser 1) 5 \/ c = UnblockCall (FnUser 2) 6)
    (new_derefs Sample.w_interrupted
       (rb_thread_call_without_gvl (FnUser 1) 5 (FnUser 2) 6 Sample.w_interrupted).2).
Proof.
  apply (blocking_region_runs_only_its_functions (FnUser 1) (FnUser 2) 5 6
           Sample.w_interrupted), ref_host_faithful.
Defined.

Lemma yield_values_reach_block_witness :
  result_of (rb_yield_values 3 [1; 2; 3]%nat Sample.w_with_block) = Ret (Some (MInt 7)) /\
  result_of (rb_yield_values2 3 [1; 2; 3]%nat Sample.w_with_block) = Ret (Some (MInt 7)).
Proof.
  apply (yield_values_reach_block Sample.fns 3 [1; 2; 3]%nat [MInt 7; MInt 8; MInt 9] 1%nat
           (fun args => Ret (default MNil (head args))) Sample.w_with_block).
  - lia.
  - reflexivity.
  - repeat constructor.
  - reflexivity.
  - reflexivity.
Defined.

Lemma iv_set_then_read_witness :
  exists w1 : @World Sample.P,
    rb_iv_set 0%nat "@a" 1%nat Sample.w_no_block = (Ret 1%nat, w1) /\
    (rb_iv_get 0%nat "@a" w1).1 = Ret 1%nat /\
    (rb_ivar_get 0%nat (rb_intern "@a") w1).1 = Ret 1%nat /\
    (rb_attr_get 0%nat (rb_intern "@a") w1).1 = Ret 1%nat.
Proof.
  apply (iv_set_then_read Sample.fns 0%nat 1%nat (MObj 0) (MInt 7) "@a" Sample.w_no_block).
  - unfold Handle.wf. apply (bool_decide_unpack _). vm_compute. reflexivity.
  - reflexivity.
  - reflexivity.
Defined.

Section PassThrough.

Context `{Platform}.

(** X16: the remaining forwarders pass what their handles denote, in
    the order of the source.  For valid handles and on any host,
    [rb_apply] hands over the receiver, the symbol of the [ID] and the
    argument array as it is; [rb_copy_generic_ivar] the clone and then the
    object; [rb_free_generic_ivar] and [rb_obj_instance_variables] the
    object; [rb_obj_method_arity] the object and the symbol; each with
    exactly one invocation. *)
Theorem forwarders_pass_in_order (object args clone : VALUE) (o a c : ref) (name : ID)
    (w : World) :
  handles w !! object = Some o ->
  handles w !! args = Some a ->
  handles w !! clone = Some c ->
  new_calls w (rb_apply object name args w).2 =
    [Invoke RUBY_CEXT "rb_apply" [Managed o; Managed (MSym (id_name name)); Managed a]] /\
  new_calls w (rb_copy_generic_ivar clone object w).2 =
    [Invoke RUBY_CEXT "rb_copy_generic_ivar" [Managed c; Managed o]] /\
  new_calls w (rb_free_generic_ivar object w).2 =
    [Invoke RUBY_CEXT "rb_free_generic_ivar" [Managed o]] /\
  new_calls w (rb_obj_instance_variables object w).2 =
    [Invoke RUBY_CEXT "rb_obj_instance_variables" [Managed o]] /\
  new_calls w (rb_obj_method_arity object name w).2 =
    [Invoke RUBY_CEXT "rb_obj_method_arity" [Managed o; Managed (MSym (id_name name))]].
Proof.
  intros Ho Ha Hc.
  destruct (ID2SYM_spec name w) as (sym & w1 & Hsym & Hs & Hkeep & Hcalls & _).
  assert (Forall2 (fun x r => handles w1 !! x = Some r)
            [object; sym; args] [o; MSym (id_name name); a]) as Happly.
  { repeat constructor; auto. }
  assert (Forall2 (fun x r => handles w1 !! x = Some r)
            [object; sym] [o; MSym (id_name name)]) as Harity.
  { repeat constructor; auto. }
  assert (Forall2 (fun x r => handles w !! x = Some r) [clone; object] [c; o]) as Hcopy.
  { repeat constructor; auto. }
  assert (Forall2 (fun x r => handles w !! x = Some r) [object] [o]) as Hobj.
  { repeat constructor; auto. }
  split_and!; apply new_calls_app.
  - unfold rb_apply. rewrite (bind_Ret _ _ _ _ _ Hsym).
    by rewrite (calls_RUBY_CEXT_INVOKE _ _ _ _ Happly), Hcalls.
  - unfold rb_copy_generic_ivar. rewrite calls_bind_ret.
    by rewrite (calls_RUBY_CEXT_INVOKE_NO_WRAP _ _ _ _ Hcopy).
  - unfold rb_free_generic_ivar. rewrite calls_bind_ret.
    by rewrite (calls_RUBY_CEXT_INVOKE_NO_WRAP _ _ _ _ Hobj).
  - unfold rb_obj_instance_variables.
    by rewrite (calls_RUBY_CEXT_INVOKE _ _ _ _ Hobj).
  - unfold rb_obj_method_arity. rewrite (bind_Ret _ _ _ _ _ Hsym).
    rewrite (calls_bind_silent _ _ w1).
    + by rewrite (calls_RUBY_CEXT_INVOKE_NO_WRAP _ _ _ _ Harity), Hcalls.
    + intros x w0 o' w'. unfold polyglot_as_i32, ret, undefined.
      repeat case_match; by intros [= _ <-].
Qed.

End PassThrough.

Lemma forwarders_pass_in_order_witness :
  new_calls Sample.w_no_block (rb_copy_generic_ivar 1%nat 0%nat Sample.w_no_block).2 =
    [Invoke RUBY_CEXT "rb_copy_generic_ivar" [Managed (MInt 7); Managed (MObj 0)]].
Proof.
  apply (forwarders_pass_in_order 0%nat 0%nat 1%nat (MObj 0) (MObj 0) (MInt 7)
           (rb_intern "x") Sample.w_no_block); reflexivity.
Defined.

(** ** Outcomes that do not depend on the handle table *)

Section HostAnswers.

Context `{Platform}.

Lemma call_native_same f arg (w w' : World) :
  host w = host w' ->
  (call_native f arg w).1 = (call_native f arg w').1 /\
  host (call_native f arg w).2 = host (call_native f arg w').2.
Proof.
  intros Hhost.
  unfold call_native, call_gvl_call_function, call_unblock_function, call_fnptr,
    undefined, ret, bind.
  destruct f; try done.
  - destruct arg; try done. by destruct (gc_function s).
  - destruct arg; try done. by destruct (ub_function s).
  - by destruct arg.
Qed.

Lemma run_host_same p (w w' : World) :
  host w = host w' ->
  (run_host p w).1 = (run_host p w').1 /\
  host (run_host p w).2 = host (run_host p w').2.
Proof.
  revert w w'. induction p as [o s|f arg k IH]; intros w w' Hhost; simpl; [done|].
  unfold bind. destruct (call_native_same f arg w w' Hhost) as [Ho Hh].
  destruct (call_native f arg w) as [[r| | |] w0], (call_native f arg w') as [[r'| | |] w0'];
    simpl in *; simplify_eq; try done.
  by apply IH.
Qed.

(** Two invocations that the host answers with the same program, run on
    worlds with the same host state, hand back the same reference and
    leave the same host state. *)
Lemma invoke_then_wrap_same target name args target' name' args' (w w' : World) :
  host w = host w' ->
  host_invoke target name args (host w) = host_invoke target' name' args' (host w') ->
  result_of ((r <- polyglot_invoke target name args ;; rb_tr_wrap r) w) =
    result_of ((r <- polyglot_invoke target' name' args' ;; rb_tr_wrap r) w') /\
  host ((r <- polyglot_invoke target name args ;; rb_tr_wrap r) w).2 =
    host ((r <- polyglot_invoke target' name' args' ;; rb_tr_wrap r) w').2.
Proof.
  intros Hhost Hprog. unfold polyglot_invoke, bind. simpl host. rewrite Hprog.
  match goal with |- context [run_host ?p ?a] =>
    match goal with |- context [run_host p ?b] =>
      lazymatch a with b => fail | _ => idtac end;
      destruct (run_host_same p a b Hhost) as [Ho Hh];
      destruct (run_host p a) as [[r| | |] v], (run_host p b) as [[r'| | |] v']
    end end; simpl in *; simplify_eq; try done.
  destruct r' as [r| | | | | | |]; try done.
  destruct (rb_tr_wrap_spec r v) as (h & v1 & -> & Hl & _ & Hh1 & _).
  destruct (rb_tr_wrap_spec r v') as (h' & v1' & -> & Hl' & _ & Hh1' & _).
  simpl. rewrite Hl, Hl'. split; [done | congruence].
Qed.

End HostAnswers.

(** ** The two ways of calling with a block, on the reference host *)

Section BlockCallPaths.

Variable fns : nat -> Z -> Z.

Local Abbreviation P := (RefHost.platform fns).

Lemma invoke_rb_funcall_with_block recv m a p s :
  RefHost.invoke RUBY_CEXT "rb_funcall_with_block"
    [Managed recv; Managed (MSym m); Managed a; Managed p] s =
  match RefHost.array_at s a with
  | Some l =>
      RefHost.dispatch recv m l
        (if decide (p = MNil) then RefHost.NoBlock else RefHost.ProcBlock p) s
  | None => RefHost.bad_args s
  end.
Proof. reflexivity. Qed.

Lemma invoke_rb_block_call recv m a f d s :
  RefHost.invoke RUBY_CEXT "rb_block_call"
    [Managed recv; Managed (MSym m); Managed a; Fun f; Ptr d] s =
  match RefHost.array_at s a with
  | Some l =>
      RefHost.dispatch recv m l
        (if decide (RefHost.block s = MNil) then RefHost.NativeBlock f d
         else RefHost.ProcBlock (RefHost.block s)) s
  | None => RefHost.bad_args s
  end.
Proof. reflexivity. Qed.

(** The block of the calling frame, asked for through the bridge. *)
Lemma rb_block_proc_of_frame (w : @World P) :
  exists proc w1,
    rb_block_proc w = (Ret proc, w1) /\
    handles w1 !! proc = Some (RefHost.block (host w)) /\
    (forall v r, handles w !! v = Some r -> handles w1 !! v = Some r) /\
    host w1 = host w.
Proof.
  set (w0 := @mkWorld P (handles w) (host w)
               (calls w ++ [Invoke RUBY_CEXT "rb_block_proc" []]) (derefs w)).
  destruct (rb_tr_wrap_spec (RefHost.block (host w)) w0) as (h & w1 & Hw & Hh & Hkeep & Hhost & _).
  exists h, w1. split_and!; [|done|done|done].
  unfold rb_block_proc, RUBY_CEXT_INVOKE, RUBY_CEXT_INVOKE_NO_WRAP.
  simpl unwrap_all. rewrite !bind_assoc. unfold bind at 1. unfold ret at 1.
  erewrite bind_Ret; [exact Hw|].
  apply polyglot_invoke_done. reflexivity.
Qed.

Lemma rb_block_given_p_of_frame (w : @World P) :
  RefHost.block (host w) <> MNil ->
  exists w1,
    rb_block_given_p w = (Ret true, w1) /\
    (forall v r, handles w !! v = Some r -> handles w1 !! v = Some r) /\
    host w1 = host w.
Proof.
  intros Hblock.
  destruct (rb_block_proc_of_frame w) as (proc & w1 & Hproc & Hh & Hkeep & Hhost).
  exists w1. split_and!; [|done|done].
  unfold rb_block_given_p. rewrite (bind_Ret _ _ _ _ _ Hproc).
  unfold NIL_P. rewrite bind_assoc.
  rewrite (bind_Ret _ _ _ _ _ (rb_tr_unwrap_valid _ _ _ Hh)).
  unfold bind, ret. by destruct (RefHost.block (host w)).
Qed.

(** The host state once the argument array is built. *)
Lemma rb_ary_new4_frame n args refs (w : @World P) :
  0 <= n ->
  length args = Z.to_nat n ->
  Forall2 (fun v r => handles w !! v = Some r) args refs ->
  exists ary w',
    rb_ary_new4 n args w = (Ret ary, w') /\
    handles w' !! ary = Some (MObj (length (RefHost.heap (host w)))) /\
    (forall v r, handles w !! v = Some r -> handles w' !! v = Some r) /\
    RefHost.array_at (host w') (MObj (length (RefHost.heap (host w)))) = Some refs /\
    RefHost.block (host w') = RefHost.block (host w) /\
    host w' = RefHost.set_heap
                (<[length (RefHost.heap (host w)) := RefHost.HArray refs]>
                   (RefHost.heap (host w) ++ [RefHost.HArray []])) (host w).
Proof.
  intros Hn Hlen Hvalid.
  destruct (rb_ary_new_capa_frame fns n w Hn) as (values & w1 & Hnew & Hvalues & Hkeep & Hhost).
  set (a := length (RefHost.heap (host w))) in *.
  assert (RefHost.heap (host w1) !! a = Some (RefHost.HArray [])) as Hempty.
  { rewrite Hhost. simpl. by apply list_lookup_middle. }
  assert (Forall2 (fun v r => handles w1 !! v = Some r) args refs) as Hvalid1.
  { eapply Forall2_impl; [exact Hvalid|]. auto. }
  assert (Forall2 (fun _ _ => True) args refs) as Hshape.
  { eapply Forall2_impl; [exact Hvalid|done]. }
  destruct (store_loop_frame fns args values a args refs Hshape
              [] [] w1 eq_refl eq_refl Hvalid1 Hvalues Hempty) as (w' & Hrun & Hh & Hhost').
  simpl in Hrun. rewrite Hlen in Hrun.
  assert (host w' = RefHost.set_heap
            (<[a := RefHost.HArray refs]> (RefHost.heap (host w) ++ [RefHost.HArray []]))
            (host w)) as Hfinal.
  { rewrite Hhost', Hhost. reflexivity. }
  exists values, w'. split_and!.
  - unfold rb_ary_new4. by rewrite (bind_Ret _ _ _ _ _ Hnew), (bind_Ret _ _ _ _ _ Hrun).
  - by rewrite Hh.
  - intros v r Hv. rewrite Hh. by apply Hkeep.
  - rewrite Hfinal. simpl. rewrite list_lookup_insert_eq; [done|].
    rewrite length_app. simpl. lia.
  - by rewrite Hfinal.
  - done.
Qed.

(** C3: on the reference host, with a block in the calling frame,
    [rb_block_call] takes the direct call with the explicit proc, and for
    every receiver, method and argument list that call and the generic
    block-call path, in which the host resolves the block of the calling
    frame, hand back the same result and leave the host in the same
    state. *)
Theorem block_call_direct_matches_generic (object data : VALUE) (name : ID) (args_count : Z)
    (args : list VALUE) (block_call_func : fnptr) (o : ref) (refs : list ref)
    (w : @World P) :
  RefHost.block (host w) <> MNil ->
  handles w !! object = Some o ->
  0 <= args_count ->
  length args = Z.to_nat args_count ->
  Forall2 (fun v r => handles w !! v = Some r) args refs ->
  let direct := (proc <- rb_block_proc ;;
                 rb_funcall_with_block object name args_count args proc) w in
  let generic := rb_block_call_generic object name args_count args block_call_func data w in
  let actual := rb_block_call object name args_count args block_call_func data w in
  (rb_block_given_p w).1 = Ret true /\
  result_of direct = result_of generic /\
  host direct.2 = host generic.2 /\
  result_of actual = result_of generic /\
  host actual.2 = host generic.2.
Proof.
  intros Hblock Ho Hn Hlen Hvalid direct generic actual.
  set (s := host w) in *.
  set (a := length (RefHost.heap s)).
  set (s' := RefHost.set_heap
               (<[a := RefHost.HArray refs]> (RefHost.heap s ++ [RefHost.HArray []])) s).
  (* the generic path *)
  assert (exists wg : @World P, host wg = s' /\
            RefHost.array_at (host wg) (MObj a) = Some refs /\
            generic = (r <- polyglot_invoke RUBY_CEXT "rb_block_call"
                             [Managed o; Managed (MSym (id_name name)); Managed (MObj a);
                              Fun block_call_func; Ptr (Z.of_nat data)] ;;
                       rb_tr_wrap r) wg) as (wg & Hwg & Hag & Hgeneric).
  { subst generic. unfold rb_block_call_generic.
    rewrite (bind_Ret _ _ _ _ _ (rb_tr_unwrap_valid _ _ _ Ho)).
    destruct (ID2SYM_spec name w) as (sym & w1 & Hsym & Hs & Hkeep1 & _ & Hhost1 & _).
    rewrite (bind_Ret _ _ _ _ _ Hsym).
    rewrite (bind_Ret _ _ _ _ _ (rb_tr_unwrap_valid _ _ _ Hs)).
    destruct (rb_ary_new4_frame args_count args refs w1 Hn Hlen)
      as (ary & w2 & Hary & Ha & Hkeep2 & Harr & _ & Hhost2).
    { eapply Forall2_impl; [exact Hvalid|]. auto. }
    rewrite Hhost1 in Ha, Harr, Hhost2.
    rewrite (bind_Ret _ _ _ _ _ Hary).
    rewrite (bind_Ret _ _ _ _ _ (rb_tr_unwrap_valid _ _ _ Ha)).
    exists w2. done. }
  (* the direct call, from any world of the same host state *)
  assert (forall w0 : @World P,
            host w0 = s ->
            (forall v r, handles w !! v = Some r -> handles w0 !! v = Some r) ->
            exists wd : @World P, host wd = s' /\
              RefHost.array_at (host wd) (MObj a) = Some refs /\
              (proc <- rb_block_proc ;;
               rb_funcall_with_block object name args_count args proc) w0 =
              (r <- polyglot_invoke RUBY_CEXT "rb_funcall_with_block"
                      [Managed o; Managed (MSym (id_name name)); Managed (MObj a);
                       Managed (RefHost.block s)] ;;
               rb_tr_wrap r) wd) as Hdirect.
  { intros w0 Hhost0 Hkeep0.
    destruct (rb_block_proc_of_frame w0) as (proc & w1 & Hproc & Hp & Hkeep1 & Hhost1).
    rewrite (bind_Ret _ _ _ _ _ Hproc). unfold rb_funcall_with_block.
    destruct (ID2SYM_spec name w1) as (sym & w2 & Hsym & Hs & Hkeep2 & _ & Hhost2 & _).
    rewrite (bind_Ret _ _ _ _ _ Hsym).
    destruct (rb_ary_new4_frame args_count args refs w2 Hn Hlen)
      as (ary & w3 & Hary & Ha & Hkeep3 & Harr & _ & Hhost3).
    { eapply Forall2_impl; [exact Hvalid|]. auto. }
    rewrite Hhost2, Hhost1, Hhost0 in Ha, Harr, Hhost3.
    rewrite (bind_Ret _ _ _ _ _ Hary).
    exists w3. split_and!; [done|done|].
    unfold RUBY_CEXT_INVOKE, bind.
    rewrite (RUBY_CEXT_INVOKE_NO_WRAP_valid _ _
               [o; MSym (id_name name); MObj a; RefHost.block s]); [done|].
    rewrite Hhost0 in Hp. repeat constructor; auto. }
  (* both invocations are answered with the same host program *)
  assert (forall wd : @World P, host wd = s' -> RefHost.array_at (host wd) (MObj a) = Some refs ->
            result_of ((r <- polyglot_invoke RUBY_CEXT "rb_funcall_with_block"
                               [Managed o; Managed (MSym (id_name name)); Managed (MObj a);
                                Managed (RefHost.block s)] ;;
                        rb_tr_wrap r) wd) = result_of generic /\
            host ((r <- polyglot_invoke RUBY_CEXT "rb_funcall_with_block"
                          [Managed o; Managed (MSym (id_name name)); Managed (MObj a);
                           Managed (RefHost.block s)] ;;
                   rb_tr_wrap r) wd).2 = host generic.2) as Hsame.
  { intros wd Hwd Had. rewrite Hgeneric.
    apply invoke_then_wrap_same; [congruence|].
    simpl host_invoke. rewrite invoke_rb_funcall_with_block, invoke_rb_block_call.
    rewrite Had, Hag, Hwd, Hwg.
    replace (RefHost.block s') with (RefHost.block s) by done.
    by rewrite !decide_False by done. }
  destruct (rb_block_given_p_of_frame w Hblock) as (w1 & Hgiven & Hkeep1 & Hhost1).
  destruct (Hdirect w eq_refl) as (wd & Hwd & Had & Hrun); [done|].
  destruct (Hdirect w1 Hhost1 Hkeep1) as (wd1 & Hwd1 & Had1 & Hrun1).
  assert (actual = (proc <- rb_block_proc ;;
                    rb_funcall_with_block object name args_count args proc) w1) as Hactual.
  { subst actual. unfold rb_block_call. by rewrite (bind_Ret _ _ _ _ _ Hgiven). }
  split_and!.
  - by rewrite Hgiven.
  - subst direct. rewrite Hrun. by apply Hsame.
  - subst direct. rewrite Hrun. by apply Hsame.
  - rewrite Hactual, Hrun1. by apply Hsame.
  - rewrite Hactual, Hrun1. by apply Hsame.
Qed.

End BlockCallPaths.

Lemma block_call_direct_matches_generic_witness :
  result_of (rb_block_call 0%nat (rb_intern "each") 1 [1%nat] (FnUser 1) 2%nat
               Sample.w_with_block) =
  result_of (rb_block_call_generic 0%nat (rb_intern "each") 1 [1%nat] (FnUser 1) 2%nat
               Sample.w_with_block).
Proof.
  apply (block_call_direct_matches_generic Sample.fns 0%nat 2%nat (rb_intern "each") 1
           [1%nat] (FnUser 1) (MObj 0) [MInt 7] Sample.w_with_block).
  - discriminate.
  - reflexivity.
  - lia.
  - reflexivity.
  - repeat constructor.
Defined.

(** On the sample host both calls run the block over the array and hand
    the array back. *)
Example block_call_runs :
  result_of (rb_block_call 0%nat (rb_intern "each") 1 [1%nat] (FnUser 1) 2%nat
               Sample.w_with_block) = Ret (Some (MObj 0)).
Proof. vm_compute. reflexivity. Qed.

(** ** Looking an instance variable up by a C string *)

Section IvarLookupByName.

Variable fns : nat -> Z -> Z.

Local Abbreviation P := (RefHost.platform fns).

Lemma invoke_rb_ivar_lookup_c_string o bytes d s :
  RefHost.invoke RUBY_CEXT "rb_ivar_lookup" [Managed o; CStr bytes; Managed d] s =
  RefHost.bad_args s.
Proof. reflexivity. Qed.

Lemma invoke_rb_ivar_lookup_symbol o n d s :
  RefHost.invoke RUBY_CEXT "rb_ivar_lookup" [Managed o; Managed (MSym n); Managed d] s =
  RefHost.finish (default d (RefHost.ivars s !! (o, n))) s.
Proof. reflexivity. Qed.

(** C8: [rb_ivar_lookup] hands the host the bytes of its C string where
    the operation takes a symbol.  On the reference host the lookup
    therefore leaves with an [ArgumentError] for every object, name and
    default, whether the instance variable is defined or not, and the
    default is never returned; [rb_attr_get], which invokes the same
    operation with the symbol of its ID, returns nil for a name the object
    has no instance variable for. *)
Theorem ivar_lookup_c_string_name (object default_value : VALUE) (o d : ref)
    (name : ID) (cname : string) (w : @World P) :
  handles w !! object = Some o ->
  handles w !! default_value = Some d ->
  (exists w' : @World P,
      rb_ivar_lookup object cname default_value w =
        (Jump (JRaise (MObj (length (RefHost.heap (host w))))), w') /\
      RefHost.heap (host w') !! length (RefHost.heap (host w)) =
        Some (RefHost.HException "ArgumentError" "wrong arguments for the operation") /\
      new_calls w w' =
        [Invoke RUBY_CEXT "rb_ivar_lookup" [Managed o; CStr (c_str cname); Managed d]]) /\
  (RefHost.ivars (host w) !! (o, id_name name) = None ->
   exists h (w' : @World P),
      rb_attr_get object name w = (Ret h, w') /\ handles w' !! h = Some MNil).
Proof.
  intros Ho Hd. split.
  - set (e := length (RefHost.heap (host w))).
    set (s' := RefHost.set_heap
                 (RefHost.heap (host w) ++
                    [RefHost.HException "ArgumentError" "wrong arguments for the operation"])
                 (host w)).
    exists (@mkWorld P (handles w) s'
              (calls w ++ [Invoke RUBY_CEXT "rb_ivar_lookup"
                             [Managed o; CStr (c_str cname); Managed d]]) (derefs w)).
    split_and!.
    + unfold rb_ivar_lookup.
      rewrite (bind_Ret _ _ _ _ _ (rb_tr_unwrap_valid _ _ _ Ho)).
      rewrite (bind_Ret _ _ _ _ _ (rb_tr_unwrap_valid _ _ _ Hd)).
      unfold bind.
      by erewrite polyglot_invoke_done by (simpl host_invoke;
        rewrite invoke_rb_ivar_lookup_c_string; reflexivity).
    + simpl. by apply list_lookup_middle.
    + unfold new_calls. simpl. by rewrite drop_app_length.
  - intros Hundef. unfold rb_attr_get.
    destruct (ID2SYM_spec name w) as (sym & w1 & Hsym & Hs & Hkeep1 & _ & Hhost1 & _).
    destruct (Qnil_spec w1) as (q & w2 & Hq & Hnil & Hkeep2 & _ & Hhost2 & _).
    rewrite (bind_Ret _ _ _ _ _ Hsym), (bind_Ret _ _ _ _ _ Hq).
    unfold RUBY_CEXT_INVOKE, bind.
    rewrite (RUBY_CEXT_INVOKE_NO_WRAP_valid _ _ [o; MSym (id_name name); MNil]).
    2:{ repeat constructor; auto. }
    simpl fmap.
    erewrite polyglot_invoke_done
      by (simpl host_invoke; rewrite invoke_rb_ivar_lookup_symbol; reflexivity).
    rewrite Hhost2, Hhost1, Hundef. simpl default.
    match goal with |- context [rb_tr_wrap (Managed MNil) ?w3] =>
      destruct (rb_tr_wrap_spec MNil w3) as (h & w4 & Hw & Hh & _) end.
    exists h, w4. by rewrite Hw.
Qed.

End IvarLookupByName.

Lemma ivar_lookup_c_string_name_witness :
  (exists w' : @World Sample.P,
      rb_ivar_lookup 0%nat "@b" 1%nat Sample.w_no_block = (Jump (JRaise (MObj 1)), w')) /\
  (exists h (w' : @World Sample.P),
      rb_attr_get 0%nat (rb_intern "@b") Sample.w_no_block = (Ret h, w') /\
      handles w' !! h = Some MNil).
Proof.
  destruct (ivar_lookup_c_string_name Sample.fns 0%nat 1%nat (MObj 0) (MInt 7)
              (rb_intern "@b") "@b" Sample.w_no_block) as [(w' & Hrun & Hrest) Hattr].
  - reflexivity.
  - reflexivity.
  - split; [by exists w' | apply Hattr; reflexivity].
Defined.
